(** * pdf-encrypt-lite: MD5, RC4 and the PDF Standard Security Handler (revision 3)

    A shallow embedding of [crypto-minimal.js] (functions [md5], class [RC4])
    and of the key-derivation part of [pdf-encrypt.js] ([PADDING],
    [padPassword], [computeEncryptionKey], [computeOwnerKey],
    [computeUserKey], [encryptObject]).

    Conventions of the embedding.
    - A JavaScript number that holds an integer is a [Z]; every place where
      the source applies a 32-bit operator ([&], [|], [^], [~], [<<], [>>],
      [>>>]) goes through [ToInt32]/[ToUint32] explicitly.
    - A [Uint8Array] is a [list Z] whose elements are bytes ([u8array]); a
      store of a computed number into such an array wraps modulo 256
      ([ToUint8]); [TypedArray.prototype.set] and [DataView.setUint32] raise
      a [RangeError] out of bounds, which the embedding renders as [None].
    - A thrown exception is [None] in the [option] monad.
    - A JavaScript string is identified with its UTF-8 encoding, so that
      [TextEncoder.encode] is the conversion from [string] to bytes. *)

From Stdlib Require Import ZArith Lia Ascii String.
From stdpp Require Import base option list.

Local Open Scope Z_scope.

(** ** JavaScript integer operators *)

Module JS.

Definition ToUint32 (x : Z) : Z := x mod 2 ^ 32.

Definition ToInt32 (x : Z) : Z :=
  let m := x mod 2 ^ 32 in if m <? 2 ^ 31 then m else m - 2 ^ 32.

(** Conversion applied by a store into a [Uint8Array]. *)
Definition ToUint8 (x : Z) : Z := x mod 256.

Definition and (a b : Z) : Z := Z.land (ToInt32 a) (ToInt32 b).
Definition or (a b : Z) : Z := Z.lor (ToInt32 a) (ToInt32 b).
Definition xor (a b : Z) : Z := Z.lxor (ToInt32 a) (ToInt32 b).
Definition not (a : Z) : Z := Z.lnot (ToInt32 a).
(** [a << n], [a >> n] and [a >>> n]: the shift count is taken modulo 32. *)
Definition shl (a n : Z) : Z := ToInt32 (Z.shiftl (ToInt32 a) (n mod 32)).
Definition sar (a n : Z) : Z := Z.shiftr (ToInt32 a) (n mod 32).
Definition shr (a n : Z) : Z := Z.shiftr (ToUint32 a) (n mod 32).

(** [a % b] on non-negative integers; [None] is [NaN] (division by zero). *)
Definition rem (a b : Z) : option Z :=
  if b =? 0 then None else Some (Z.rem a b).

End JS.

(** ** Typed arrays *)

Definition is_u8 (b : Z) : Prop := 0 <= b < 256.

(** The values a [Uint8Array] can hold. *)
Definition u8array (l : list Z) : Prop := Forall is_u8 l.

(** [new Uint8Array(n)] for a length that is already known to be valid. *)
Definition Uint8Array_new (n : nat) : list Z := replicate n 0.

(** [new Uint8Array(n)] for a computed length: a negative length throws. *)
Definition Uint8Array_alloc (n : Z) : option (list Z) :=
  if n <? 0 then None else Some (Uint8Array_new (Z.to_nat n)).

(** [tgt.set(src, off)]: copies [src] into [tgt] from index [off]; throws a
    [RangeError] when [src] does not fit. *)
Definition u8_set (tgt src : list Z) (off : nat) : option (list Z) :=
  if decide (off + length src <= length tgt)%nat
  then Some (take off tgt ++ src ++ drop (off + length src) tgt)
  else None.

(** [tgt[i] = v] for a computed number [v]: wraps to a byte; an index out of
    range is ignored. *)
Definition u8_store (tgt : list Z) (i : nat) (v : Z) : list Z :=
  <[i := JS.ToUint8 v]> tgt.

(** [arr[i]] on an array or typed array where the source only reads in
    range; 0 outside. *)
Definition arr_get (arr : list Z) (i : Z) : Z :=
  default 0 (arr !! Z.to_nat i).

(** [arr.slice(from, to)] for [0 <= from <= to]. *)
Definition slice (arr : list Z) (from to : nat) : list Z :=
  take (to - from) (drop from arr).

(** The [n] low bytes of [w], low byte first (two's complement for a
    negative [w]). *)
Fixpoint le_bytes (n : nat) (w : Z) : list Z :=
  match n with
  | O => []
  | Datatypes.S n' => w mod 256 :: le_bytes n' (w / 256)
  end.

(** The four bytes of a 32-bit word, low byte first. *)
Definition le32 (w : Z) : list Z := le_bytes 4 w.

(** [new DataView(buf.buffer).setUint32(off, v, true)]: stores [ToUint32 v]
    little-endian; throws a [RangeError] out of bounds. *)
Definition setUint32_le (buf : list Z) (off v : Z) : option (list Z) :=
  if decide (0 <= off /\ off + 4 <= Z.of_nat (length buf))
  then Some (take (Z.to_nat off) buf ++ le32 (JS.ToUint32 v)
             ++ drop (Z.to_nat off + 4) buf)
  else None.

(** Element [g] of [new Uint32Array(buf.buffer, off, 16)]: the word stored at
    bytes [off + 4g .. off + 4g + 3] (little-endian platform). *)
Definition getUint32_le (buf : list Z) (pos : Z) : Z :=
  arr_get buf pos + 2 ^ 8 * arr_get buf (pos + 1)
  + 2 ^ 16 * arr_get buf (pos + 2) + 2 ^ 24 * arr_get buf (pos + 3).

(** [new TextEncoder().encode(s)]. *)
Definition TextEncoder_encode (s : string) : list Z :=
  (fun a => Z.of_N (N_of_ascii a)) <$> list_ascii_of_string s.

(** ** crypto-minimal.js: md5 *)

Module MD5.

Definition S : list Z :=
  [ 7; 12; 17; 22; 7; 12; 17; 22; 7; 12; 17; 22; 7; 12; 17; 22;
    5; 9; 14; 20; 5; 9; 14; 20; 5; 9; 14; 20; 5; 9; 14; 20;
    4; 11; 16; 23; 4; 11; 16; 23; 4; 11; 16; 23; 4; 11; 16; 23;
    6; 10; 15; 21; 6; 10; 15; 21; 6; 10; 15; 21; 6; 10; 15; 21 ].

Definition K : list Z :=
  [ 0xd76aa478; 0xe8c7b756; 0x242070db; 0xc1bdceee;
    0xf57c0faf; 0x4787c62a; 0xa8304613; 0xfd469501;
    0x698098d8; 0x8b44f7af; 0xffff5bb1; 0x895cd7be;
    0x6b901122; 0xfd987193; 0xa679438e; 0x49b40821;
    0xf61e2562; 0xc040b340; 0x265e5a51; 0xe9b6c7aa;
    0xd62f105d; 0x02441453; 0xd8a1e681; 0xe7d3fbc8;
    0x21e1cde6; 0xc33707d6; 0xf4d50d87; 0x455a14ed;
    0xa9e3e905; 0xfcefa3f8; 0x676f02d9; 0x8d2a4c8a;
    0xfffa3942; 0x8771f681; 0x6d9d6122; 0xfde5380c;
    0xa4beea44; 0x4bdecfa9; 0xf6bb4b60; 0xbebfbc70;
    0x289b7ec6; 0xeaa127fa; 0xd4ef3085; 0x04881d05;
    0xd9d4d039; 0xe6db99e5; 0x1fa27cf8; 0xc4ac5665;
    0xf4292244; 0x432aff97; 0xab9423a7; 0xfc93a039;
    0x655b59c3; 0x8f0ccc92; 0xffeff47d; 0x85845dd1;
    0x6fa87e4f; 0xfe2ce6e0; 0xa3014314; 0x4e0811a1;
    0xf7537e82; 0xbd3af235; 0x2ad7d2bb; 0xeb86d391 ].

(** The four accumulators [a0, b0, c0, d0] (and the working [a, b, c, d]). *)
Record state := mkState { sa : Z; sb : Z; sc : Z; sd : Z }.

Definition init : state :=
  mkState 0x67452301 0xefcdab89 0x98badcfe 0x10325476.

(** [msgLenPadded]: the operator [&] works on 32-bit signed integers. *)
Definition padded_length (msgLen : Z) : Z :=
  JS.and (msgLen + 9 + 63) (JS.not 63).

(** Pre-processing: the padded message [msg], or [None] when the source
    throws ([new Uint8Array] on a negative length, [msg.set] on a source
    that does not fit, [setUint32] out of bounds). *)

Definition preprocess (bytes : list Z) : option (list Z) :=
  let msgLen := Z.of_nat (length bytes) in
  let msgBitLen := msgLen * 8 in
  let msgLenPadded := padded_length msgLen in
  msg ← Uint8Array_alloc msgLenPadded;
  msg ← u8_set msg bytes 0;
  let msg := u8_store msg (Z.to_nat msgLen) 0x80 in
  msg ← setUint32_le msg (msgLenPadded - 8) msgBitLen;
  setUint32_le msg (msgLenPadded - 4) 0.

(** Body of the inner loop: round [i] on the chunk at [offset]. *)
Definition round (msg : list Z) (offset : Z) (w : state) (i : Z) : state :=
  let '(mkState a b c d) := w in
  let '(f, g) :=
    if i <? 16 then (JS.or (JS.and b c) (JS.and (JS.not b) d), i)
    else if i <? 32 then (JS.or (JS.and d b) (JS.and (JS.not d) c), (5 * i + 1) mod 16)
    else if i <? 48 then (JS.xor (JS.xor b c) d, (3 * i + 5) mod 16)
    else (JS.xor c (JS.or b (JS.not d)), (7 * i) mod 16) in
  let f := JS.shr (f + a + arr_get K i + getUint32_le msg (offset + 4 * g)) 0 in
  let s := arr_get S i in
  mkState d (JS.shr (b + JS.or (JS.shl f s) (JS.shr f (32 - s))) 0) b c.

(** Body of the outer loop: one 64-byte chunk. *)
Definition chunk_step (msg : list Z) (h : state) (offset : Z) : state :=
  let w := fold_left (round msg offset) (seqZ 0 64) h in
  mkState (JS.shr (sa h + sa w) 0) (JS.shr (sb h + sb w) 0)
          (JS.shr (sc h + sc w) 0) (JS.shr (sd h + sd w) 0).

(** The offsets [0, 64, 128, ...] below [msgLenPadded]. *)
Definition offsets (msgLenPadded : Z) : list Z :=
  (fun k => 64 * k) <$> seqZ 0 ((msgLenPadded + 63) / 64).

(** The 16 bytes that the four [setUint32] calls at the end of [md5] leave
    in [result]. *)
Definition serialize (h : state) : list Z :=
  le32 (JS.ToUint32 (sa h)) ++ le32 (JS.ToUint32 (sb h))
  ++ le32 (JS.ToUint32 (sc h)) ++ le32 (JS.ToUint32 (sd h)).

(** The accumulators after the loop over the chunks of [msg]. *)
Definition compress (msgLenPadded : Z) (msg : list Z) : state :=
  fold_left (chunk_step msg) (offsets msgLenPadded) init.

(** [md5(data)] for a [Uint8Array] argument. *)
Definition md5 (bytes : list Z) : option (list Z) :=
  let msgLenPadded := padded_length (Z.of_nat (length bytes)) in
  msg ← preprocess bytes;
  let h := compress msgLenPadded msg in
  let result := Uint8Array_new 16 in
  result ← setUint32_le result 0 (sa h);
  result ← setUint32_le result 4 (sb h);
  result ← setUint32_le result 8 (sc h);
  setUint32_le result 12 (sd h).


End MD5.

(** ** crypto-minimal.js: class RC4 *)

Module RC4.

(** An instance: the table [this.s] and the cursors [this.i], [this.j]. *)
Record t := mk { s : list Z; i : Z; j : Z }.

(** [[s[a], s[b]] = [s[b], s[a]]]: both reads happen first, then [s[a]] is
    written, then [s[b]]. *)
Definition swap (s : list Z) (a b : Z) : list Z :=
  let sb := arr_get s b in
  let sa := arr_get s a in
  u8_store (u8_store s (Z.to_nat a) sb) (Z.to_nat b) sa.

(** [key[i % key.length]]: [None] is [undefined], read when the index is
    [NaN] (empty key) or out of range. *)
Definition key_byte (key : list Z) (i : Z) : option Z :=
  idx ← JS.rem i (Z.of_nat (length key));
  key !! Z.to_nat idx.

(** [x & 0xFF] where [x] may be [NaN] ([None]): [NaN & 0xFF] is [0]. *)
Definition mask (x : option Z) : Z :=
  match x with
  | Some v => JS.and v 0xFF
  | None => 0
  end.

(** The table after [for (i = 0; i < 256; i++) this.s[i] = i]. *)
Definition identity : list Z :=
  fold_left (fun s i => u8_store s (Z.to_nat i) i) (seqZ 0 256)
            (Uint8Array_new 256).

(** One step of the key schedule on the pair (table, [j]). *)
Definition ksa_step (key : list Z) (st : list Z * Z) (i : Z) : list Z * Z :=
  let '(s, j) := st in
  let j := mask (k ← key_byte key i; Some (j + arr_get s i + k)) in
  (swap s i j, j).

(** The first [n] steps of the key schedule. *)
Definition ksa (key : list Z) (n : Z) : list Z * Z :=
  fold_left (ksa_step key) (seqZ 0 n) (identity, 0).

(** [new RC4(key)]. *)
Definition new (key : list Z) : t := mk (fst (ksa key 256)) 0 0.

(** [this.process(data)]: the instance after the call and the returned
    array; the recursion follows the loop over [k]. *)
Fixpoint process (st : t) (data : list Z) : t * list Z :=
  match data with
  | [] => (st, [])
  | d :: rest =>
      let i := JS.and (i st + 1) 0xFF in
      let j := JS.and (j st + arr_get (s st) i) 0xFF in
      let s := swap (s st) i j in
      let t := JS.and (arr_get s i + arr_get s j) 0xFF in
      let '(st', out) := process (mk s i j) rest in
      (st', JS.ToUint8 (JS.xor d (arr_get s t)) :: out)
  end.

(** [new RC4(key).process(data)] on a fresh instance that is then dropped. *)
Definition encrypt (key data : list Z) : list Z := (process (new key) data).2.

End RC4.

(** ** pdf-encrypt.js *)

Definition PADDING : list Z :=
  [ 0x28; 0xBF; 0x4E; 0x5E; 0x4E; 0x75; 0x8A; 0x41;
    0x64; 0x00; 0x4E; 0x56; 0xFF; 0xFA; 0x01; 0x08;
    0x2E; 0x2E; 0x00; 0xB6; 0xD0; 0x68; 0x3E; 0x80;
    0x2F; 0x0C; 0xA9; 0xFE; 0x64; 0x53; 0x69; 0x7A ].

Definition padPassword (password : string) : option (list Z) :=
  let pwdBytes := TextEncoder_encode password in
  let padded := Uint8Array_new 32 in
  if decide (32 <= length pwdBytes)%nat
  then u8_set padded (slice pwdBytes 0 32) 0
  else
    padded ← u8_set padded pwdBytes 0;
    u8_set padded (slice PADDING 0 (32 - length pwdBytes)) (length pwdBytes).

(** [for (let i = lo; i < lo + n; i++) acc = body(acc, i)] where the body may
    throw. *)
Definition for_range {A} (lo n : Z) (body : A -> Z -> option A) (init : A)
  : option A :=
  fold_left (fun acc i => a ← acc; body a i) (seqZ lo n) (Some init).

Definition computeEncryptionKey (userPassword : string) (ownerKey : list Z)
    (permissions : Z) (fileId : list Z) : option (list Z) :=
  paddedPwd ← padPassword userPassword;
  let hashInput :=
    Uint8Array_new (length paddedPwd + length ownerKey + 4 + length fileId) in
  let offset := 0%nat in
  hashInput ← u8_set hashInput paddedPwd offset;
  let offset := (offset + length paddedPwd)%nat in
  hashInput ← u8_set hashInput ownerKey offset;
  let offset := (offset + length ownerKey)%nat in
  let hashInput := u8_store hashInput offset (JS.and permissions 0xFF) in
  let hashInput :=
    u8_store hashInput (offset + 1) (JS.and (JS.sar permissions 8) 0xFF) in
  let hashInput :=
    u8_store hashInput (offset + 2) (JS.and (JS.sar permissions 16) 0xFF) in
  let hashInput :=
    u8_store hashInput (offset + 3) (JS.and (JS.sar permissions 24) 0xFF) in
  let offset := (offset + 4)%nat in
  hashInput ← u8_set hashInput fileId offset;
  hash ← MD5.md5 hashInput;
  hash ← for_range 0 50 (fun hash _ => MD5.md5 (slice hash 0 16)) hash;
  Some (slice hash 0 16).

(** [a || b] on an optional string: [null], [undefined] ([None]) and the
    empty string are falsy. *)
Definition or_else (a : option string) (b : string) : string :=
  match a with
  | Some s => if String.eqb s "" then b else s
  | None => b
  end.

(** The loop [key = new Uint8Array(base.length); for (j ...) key[j] = base[j] ^ i],
    which [computeOwnerKey] and [computeUserKey] both contain. *)
Definition xor_key (base : list Z) (i : Z) : list Z :=
  fold_left (fun key j => u8_store key (Z.to_nat j) (JS.xor (arr_get base j) i))
            (seqZ 0 (Z.of_nat (length base)))
            (Uint8Array_new (length base)).

Definition computeOwnerKey (ownerPassword : option string)
    (userPassword : string) : option (list Z) :=
  paddedOwner ← padPassword (or_else ownerPassword userPassword);
  hash ← MD5.md5 paddedOwner;
  hash ← for_range 0 50 (fun hash _ => MD5.md5 hash) hash;
  paddedUser ← padPassword userPassword;
  let result := paddedUser in
  Some (fold_left
          (fun result i =>
             let key := xor_key hash i in
             RC4.encrypt (slice key 0 16) result)
          (seqZ 0 20) result).

Definition computeUserKey (encryptionKey fileId : list Z) : option (list Z) :=
  let hashInput := Uint8Array_new (length PADDING + length fileId) in
  hashInput ← u8_set hashInput PADDING 0;
  hashInput ← u8_set hashInput fileId (length PADDING);
  hash ← MD5.md5 hashInput;
  let result := RC4.encrypt encryptionKey hash in
  let result :=
    fold_left
      (fun result i =>
         let key := xor_key encryptionKey i in
         RC4.encrypt key result)
      (seqZ 1 19) result in
  let finalResult := Uint8Array_new 32 in
  finalResult ← u8_set finalResult result 0;
  u8_set finalResult (Uint8Array_new 16) 16.

(** First part of [encryptObject]: the buffer [keyInput], its digest
    [objectKey], and the slice of it that is given to [new RC4]. *)
Definition objectKey (objectNum generationNum : Z) (encryptionKey : list Z)
  : option (list Z) :=
  let n := length encryptionKey in
  let keyInput := Uint8Array_new (n + 5) in
  keyInput ← u8_set keyInput encryptionKey 0;
  let keyInput := u8_store keyInput n (JS.and objectNum 0xFF) in
  let keyInput := u8_store keyInput (n + 1) (JS.and (JS.sar objectNum 8) 0xFF) in
  let keyInput := u8_store keyInput (n + 2) (JS.and (JS.sar objectNum 16) 0xFF) in
  let keyInput := u8_store keyInput (n + 3) (JS.and generationNum 0xFF) in
  let keyInput := u8_store keyInput (n + 4) (JS.and (JS.sar generationNum 8) 0xFF) in
  objectKey ← MD5.md5 keyInput;
  Some (slice objectKey 0 (Z.to_nat (Z.min (Z.of_nat n + 5) 16))).

(** [encryptObject]: the cipher keyed by that slice, applied to [data]. *)
Definition encryptObject (data : list Z) (objectNum generationNum : Z)
    (encryptionKey : list Z) : option (list Z) :=
  key ← objectKey objectNum generationNum encryptionKey;
  Some (RC4.encrypt key data).

(** ** The operations as spec.md words them

    Second definitions, written from the text of the specification (sections
    4.3 to 4.5) on top of the two primitives of the source; the theorems
    compare them with the source functions above. *)

Module Spec.

(** [digest(bytes)]: the digest primitive. *)
Definition digest (bytes : list Z) : option (list Z) := MD5.md5 bytes.

(** A fresh cipher instance for [key], applied to [data]. *)
Definition cipher (key data : list Z) : list Z :=
  (RC4.process (RC4.new key) data).2.

(** [pad(p)] on the encoded password. *)
Definition pad (p : list Z) : list Z :=
  if decide (32 <= length p)%nat then take 32 p
  else p ++ take (32 - length p) PADDING.

(** [n] further digests, each of [sel] of the previous working value. *)
Definition redigest (n : nat) (sel : list Z -> list Z) (h : list Z)
  : option (list Z) :=
  Nat.iter n (fun working => previous ← working; digest (sel previous))
           (Some h).

(** Every byte of [base] XOR-ed with the byte value [k]. *)
Definition xorKey (base : list Z) (k : Z) : list Z :=
  (fun b => Z.lxor b k) <$> base.

(** Passes [first .. first + count - 1] of the cipher over [payload], pass
    [k] keyed by [xorKey base k], each output feeding the next pass. *)
Definition passes (base : list Z) (first count : Z) (payload : list Z)
  : list Z :=
  fold_left (fun data k => cipher (xorKey base k) data) (seqZ first count)
            payload.

Definition deriveFileKey (userPassword : string) (ownerValue : list Z)
    (permissions : Z) (fileId : list Z) : option (list Z) :=
  h ← digest (pad (TextEncoder_encode userPassword) ++ ownerValue
              ++ le_bytes 4 permissions ++ fileId);
  redigest 50 (take 16) h.

(** The owner password if provided and non-empty, else the user password. *)
Definition effective (ownerPassword : option string) (userPassword : string)
  : string :=
  match ownerPassword with
  | Some EmptyString | None => userPassword
  | Some owner => owner
  end.

Definition deriveOwnerValue (ownerPassword : option string)
    (userPassword : string) : option (list Z) :=
  h ← digest (pad (TextEncoder_encode (effective ownerPassword userPassword)));
  base ← redigest 50 id h;
  Some (passes base 0 20 (pad (TextEncoder_encode userPassword))).

Definition deriveUserValue (fileKey fileId : list Z) : option (list Z) :=
  d ← digest (PADDING ++ fileId);
  Some (passes fileKey 1 19 (cipher fileKey d) ++ replicate 16 0).

Definition objectKey (fileKey : list Z) (objectNumber generationNumber : Z)
  : option (list Z) :=
  d ← digest (fileKey ++ le_bytes 3 objectNumber ++ le_bytes 2 generationNumber);
  Some (take (Nat.min (length fileKey + 5) 16) d).

Definition encryptPayload (bytes fileKey : list Z)
    (objectNumber generationNumber : Z) : option (list Z) :=
  key ← objectKey fileKey objectNumber generationNumber;
  Some (cipher key bytes).

End Spec.

(** ** Inputs used in the statements below *)

(** [new Uint8Array(n)]: [n] zero bytes. *)
Definition zero_bytes (n : Z) : list Z := replicate (Z.to_nat n) 0.


(** ** crypto-minimal.js: hexToBytes and bytesToHex

    A string that the source indexes ([hex.length], [hex.substr]) is the list
    of its UTF-16 code units. *)

Module Hex.

(** The code units of an ASCII string literal. *)
Definition units (s : string) : list Z := TextEncoder_encode s.

(** The code units that [parseInt] skips at the start of its argument
    (WhiteSpace and LineTerminator of ECMAScript). *)
Definition is_white_space (c : Z) : bool :=
  bool_decide (c ∈ [ 0x9; 0xA; 0xB; 0xC; 0xD; 0x20; 0xA0; 0x1680; 0x2000;
                     0x2001; 0x2002; 0x2003; 0x2004; 0x2005; 0x2006; 0x2007;
                     0x2008; 0x2009; 0x200A; 0x2028; 0x2029; 0x202F; 0x205F;
                     0x3000; 0xFEFF ]).

(** The value of a radix-16 digit: [0-9], [a-f], [A-F]. *)
Definition digit_value (c : Z) : option Z :=
  if (48 <=? c) && (c <=? 57) then Some (c - 48)
  else if (97 <=? c) && (c <=? 102) then Some (c - 87)
  else if (65 <=? c) && (c <=? 70) then Some (c - 55)
  else None.

Fixpoint trim_start (s : list Z) : list Z :=
  match s with
  | c :: rest => if is_white_space c then trim_start rest else s
  | [] => []
  end.

(** The number written by the longest prefix of digits of [s], after the
    digits already read into [acc]. *)
Fixpoint digits_value (acc : Z) (s : list Z) : Z :=
  match s with
  | c :: rest =>
      match digit_value c with
      | Some d => digits_value (16 * acc + d) rest
      | None => acc
      end
  | [] => acc
  end.

(** [parseInt(s, 16)]: leading white space is skipped, a sign is read, a
    prefix [0x] or [0X] is dropped, and the longest prefix of digits is the
    value; [None] is [NaN] (no digit). *)
Definition parseInt16 (s : list Z) : option Z :=
  let s := trim_start s in
  let '(sign, s) :=
    match s with
    | c :: rest =>
        if c =? 45 then (-1, rest) else if c =? 43 then (1, rest) else (1, s)
    | [] => (1, s)
    end in
  let s :=
    match s with
    | c :: x :: rest =>
        if (c =? 48) && ((x =? 120) || (x =? 88)) then rest else s
    | _ => s
    end in
  match s with
  | c :: _ =>
      match digit_value c with
      | Some _ => Some (sign * digits_value 0 s)
      | None => None
      end
  | [] => None
  end.

(** [s.substr(start, len)] for a start inside the string. *)
Definition substr (s : list Z) (start len : nat) : list Z :=
  take len (drop start s).

(** [hexToBytes(hex)]: [new Uint8Array(hex.length / 2)] truncates a
    fractional length, and a store of [NaN] leaves 0. *)
Definition hexToBytes (hex : list Z) : list Z :=
  let bytes := Uint8Array_new (length hex / 2) in
  fold_left
    (fun bytes i =>
       u8_store bytes (Z.to_nat i)
         (default 0 (parseInt16 (substr hex (Z.to_nat (i * 2)) 2))))
    (seqZ 0 (Z.of_nat (length bytes))) bytes.

(** The digit [0-9a-f] for a value below 16. *)
Definition hex_digit (d : Z) : Z := if d <? 10 then 48 + d else 87 + d.

(** The digits of a positive integer, most significant first, before
    [acc]. *)
Fixpoint hex_digits (fuel : nat) (n : Z) (acc : list Z) : list Z :=
  match fuel with
  | O => acc
  | Datatypes.S fuel' =>
      if n =? 0 then acc
      else hex_digits fuel' (n / 16) (hex_digit (n mod 16) :: acc)
  end.

(** [n.toString(16)] for an integer [n]. *)
Definition toString16 (n : Z) : list Z :=
  if n =? 0 then [48]
  else if n <? 0 then 45 :: hex_digits (Z.to_nat (- n)) (- n) []
  else hex_digits (Z.to_nat n) n [].

(** [s.padStart(2, '0')]. *)
Definition padStart2 (s : list Z) : list Z :=
  replicate (2 - length s) 48 ++ s.

(** [bytesToHex(bytes)]. *)
Definition bytesToHex (bytes : list Z) : list Z :=
  mjoin ((fun b => padStart2 (toString16 b)) <$> bytes).

(** The digits [0-9a-fA-F], and a digit with [A-F] turned into [a-f]. *)
Definition digits : list Z := seqZ 48 10 ++ seqZ 65 6 ++ seqZ 97 6.

Definition lower_case (c : Z) : Z :=
  if (65 <=? c) && (c <=? 70) then c + 32 else c.

End Hex.

(** ** pdf-encrypt.js: encryptStringsInObject

    The values of pdf-lib that the function tells apart with [instanceof]:
    a literal string and a hexadecimal string with their [value] (the code
    units of a JavaScript string), a dictionary with its entries in the order
    of [entries()], each key as [key.asString()] returns it, an array with
    its elements, and every other value (numbers, names, references,
    streams, [null], [undefined]), which the function leaves alone. The
    function updates [obj.value] in place; here it returns the updated value,
    for a value in which no object occurs twice. *)

#[warnings="-register-all"]
Inductive PDFObject : Type :=
  | PDFString (value : list Z)
  | PDFHexString (value : list Z)
  | PDFDict (entries : list (string * PDFObject))
  | PDFArray (elements : list PDFObject)
  | PDFOther.

(** The test [keyName !== '/Length' && keyName !== '/Filter' &&
    keyName !== '/DecodeParms']. *)
Definition is_traversed (keyName : string) : bool :=
  negb (String.eqb keyName "/Length") && negb (String.eqb keyName "/Filter")
  && negb (String.eqb keyName "/DecodeParms").

(** [for (const x of xs) body(x)] where the body updates [x] and may throw:
    the updated elements, in order. *)
Definition for_each {A} (body : A -> option A) : list A -> option (list A) :=
  fix loop (xs : list A) : option (list A) :=
    match xs with
    | [] => Some []
    | x :: rest =>
        x ← body x;
        rest ← loop rest;
        Some (x :: rest)
    end.

Section Traversal.

(** [PDFString.prototype.asBytes] of pdf-lib, on the string's [value]. *)
Variable asBytes : list Z -> list Z.

Fixpoint encryptStringsInObject (obj : PDFObject) (objectNum generationNum : Z)
    (encryptionKey : list Z) {struct obj} : option PDFObject :=
  match obj with
  | PDFString value =>
      let originalBytes := asBytes value in
      encrypted ← encryptObject originalBytes objectNum generationNum encryptionKey;
      Some (PDFString (Hex.bytesToHex encrypted))
  | PDFHexString value =>
      let originalBytes := Hex.hexToBytes value in
      encrypted ← encryptObject originalBytes objectNum generationNum encryptionKey;
      Some (PDFHexString (Hex.bytesToHex encrypted))
  | PDFDict entries =>
      entries ←
        for_each
          (fun '(keyName, value) =>
             if is_traversed keyName
             then
               value ← encryptStringsInObject value objectNum generationNum
                         encryptionKey;
               Some (keyName, value)
             else Some (keyName, value))
          entries;
      Some (PDFDict entries)
  | PDFArray elements =>
      elements ←
        for_each
          (fun element =>
             encryptStringsInObject element objectNum generationNum
               encryptionKey)
          elements;
      Some (PDFArray elements)
  | PDFOther => Some PDFOther
  end.

End Traversal.

(** ** pdf-encrypt.js: the key set-up of encryptPDF

    The four statements of [encryptPDF] between the file identifier and the
    loop over the objects: the permissions constant and the three
    derivations, the Owner value feeding the file key and the file key
    feeding the User value. [fileId] is what the statements before them
    leave in [fileId]: the bytes of the trailer's first identifier or 16
    random bytes. *)
Definition encryptPDF_keys (fileId : list Z) (userPassword : string)
    (ownerPassword : option string)
  : option (list Z * list Z * list Z) :=
  let permissions := 0xFFFFFFFC in
  ownerKey ← computeOwnerKey ownerPassword userPassword;
  encryptionKey ← computeEncryptionKey userPassword ownerKey permissions fileId;
  userKey ← computeUserKey encryptionKey fileId;
  Some (ownerKey, encryptionKey, userKey).

(** ** Invariants and inverse passes used in the statements below *)

(** What the constructor establishes and [process] keeps: the table holds
    every byte value once and both cursors are bytes. *)
Definition rc4_invariant (st : RC4.t) : Prop :=
  RC4.s st ≡ₚ seqZ 0 256 /\ 0 <= RC4.i st < 256 /\ 0 <= RC4.j st < 256.

(** The passes [new RC4(xor_key(base, k)).process(...)] for [k] in [ks], in
    that order: the loops of [computeOwnerKey] and [computeUserKey] run them
    for increasing [k], a reader undoes them for decreasing [k]. *)
Definition rc4_passes (base : list Z) (ks : list Z) (data : list Z) : list Z :=
  fold_left (fun result k => RC4.encrypt (xor_key base k) result) ks data.

(** * Properties *)

(** ** The integer operators *)

Lemma ToInt32_small x : 0 <= x < 2 ^ 31 -> JS.ToInt32 x = x.
Proof.
  intros Hx. unfold JS.ToInt32.
  rewrite Z.mod_small by lia.
  destruct (Z.ltb_spec x (2 ^ 31)); lia.
Qed.

(** [ToInt32] only changes a number by a multiple of [2 ^ 32]. *)
Lemma ToInt32_wrap x : exists t, JS.ToInt32 x = x + t * 2 ^ 32.
Proof.
  unfold JS.ToInt32. cbv zeta.
  pose proof (Z.div_mod x (2 ^ 32) ltac:(lia)) as Hdm.
  destruct (x mod 2 ^ 32 <? 2 ^ 31).
  - exists (- (x / 2 ^ 32)). lia.
  - exists (- (x / 2 ^ 32) - 1). lia.
Qed.

Lemma ToInt32_range x : - 2 ^ 31 <= JS.ToInt32 x < 2 ^ 31.
Proof.
  unfold JS.ToInt32. cbv zeta.
  pose proof (Z.mod_pos_bound x (2 ^ 32) ltac:(lia)).
  destruct (Z.ltb_spec (x mod 2 ^ 32) (2 ^ 31)); lia.
Qed.

Lemma ToInt32_mod_256 x : JS.ToInt32 x mod 256 = x mod 256.
Proof.
  destruct (ToInt32_wrap x) as [t ->].
  replace (x + t * 2 ^ 32) with (x + (t * 2 ^ 24) * 256) by lia.
  apply Z_mod_plus_full.
Qed.

Lemma and_0xFF x : JS.and x 0xFF = x mod 256.
Proof.
  unfold JS.and. change (JS.ToInt32 255) with (Z.ones 8).
  rewrite Z.land_ones by lia. apply ToInt32_mod_256.
Qed.

(** The byte [(p >> s) & 0xFF] of the source is byte [s / 8] of [p]. *)
Lemma sar_and_0xFF p s :
  0 <= s <= 24 -> JS.and (JS.sar p s) 0xFF = (p / 2 ^ s) mod 256.
Proof.
  intros Hs. rewrite and_0xFF. unfold JS.sar.
  rewrite (Z.mod_small s 32) by lia.
  rewrite Z.shiftr_div_pow2 by lia.
  destruct (ToInt32_wrap p) as [t ->].
  replace (2 ^ 32) with (2 ^ (24 - s) * 256 * 2 ^ s).
  2:{ change 256 with (2 ^ 8). rewrite <- !Z.pow_add_r by lia. f_equal. lia. }
  replace (t * (2 ^ (24 - s) * 256 * 2 ^ s))
    with (t * 2 ^ (24 - s) * 256 * 2 ^ s) by lia.
  rewrite Z.div_add by lia.
  apply Z_mod_plus_full.
Qed.

Lemma ToUint8_range x : is_u8 (JS.ToUint8 x).
Proof. unfold is_u8, JS.ToUint8. apply Z.mod_pos_bound. lia. Qed.

Lemma ToUint8_id x : is_u8 x -> JS.ToUint8 x = x.
Proof. unfold is_u8, JS.ToUint8. intros. apply Z.mod_small. lia. Qed.

Lemma land_lxor_distr a b c :
  Z.land (Z.lxor a b) c = Z.lxor (Z.land a c) (Z.land b c).
Proof.
  apply Z.bits_inj'. intros n _.
  rewrite Z.land_spec, !Z.lxor_spec, !Z.land_spec.
  now destruct (Z.testbit a n), (Z.testbit b n), (Z.testbit c n).
Qed.

(** What a store of [a ^ b] leaves in a byte array. *)
Lemma ToUint8_xor a b : JS.ToUint8 (JS.xor a b) = Z.lxor (a mod 256) (b mod 256).
Proof.
  unfold JS.ToUint8, JS.xor. change 256 with (2 ^ 8).
  rewrite <- !Z.land_ones by lia.
  rewrite land_lxor_distr.
  rewrite !Z.land_ones by lia. change (2 ^ 8) with 256.
  now rewrite !ToInt32_mod_256.
Qed.

Lemma lxor_u8 a b : is_u8 a -> is_u8 b -> is_u8 (Z.lxor a b).
Proof.
  unfold is_u8. intros Ha Hb.
  assert (Z.lxor a b = Z.lxor a b mod 2 ^ 8) as ->.
  { rewrite <- Z.land_ones by lia. rewrite land_lxor_distr.
    rewrite !Z.land_ones by lia. now rewrite !Z.mod_small by lia. }
  apply Z.mod_pos_bound. lia.
Qed.

Lemma ToUint8_xor_u8 a b :
  is_u8 a -> is_u8 b -> JS.ToUint8 (JS.xor a b) = Z.lxor a b.
Proof.
  intros Ha Hb. rewrite ToUint8_xor.
  unfold is_u8 in *. now rewrite !Z.mod_small by lia.
Qed.

(** Storing [d ^ k] and then [(d ^ k) ^ k] gives the byte [d] back. *)
Lemma xor_twice d k :
  is_u8 d -> JS.ToUint8 (JS.xor (JS.ToUint8 (JS.xor d k)) k) = d.
Proof.
  intros Hd. rewrite !ToUint8_xor.
  pose proof (Z.mod_pos_bound k 256 ltac:(lia)) as Hk.
  rewrite (Z.mod_small (Z.lxor _ _)).
  2:{ apply lxor_u8; unfold is_u8; [apply Z.mod_pos_bound|]; lia. }
  rewrite Z.lxor_assoc, Z.lxor_nilpotent, Z.lxor_0_r.
  unfold is_u8 in Hd. apply Z.mod_small. lia.
Qed.

(** ** Typed arrays: writes in the middle of an array *)

(** Right-associates appends and pushes conses out of them. *)
Ltac norm_app :=
  repeat first
    [ rewrite <- app_assoc | rewrite <- app_comm_cons
    | rewrite app_nil_r | rewrite app_nil_l ].

Lemma u8_set_frame pre mid post src off :
  length pre = off -> length mid = length src ->
  u8_set (pre ++ mid ++ post) src off = Some (pre ++ src ++ post).
Proof.
  intros <- Hmid. unfold u8_set.
  rewrite decide_True by (rewrite !length_app; lia).
  rewrite take_app_length, <- drop_drop, drop_app_length.
  now rewrite <- Hmid, drop_app_length.
Qed.

Lemma u8_set_frame_0 mid post src :
  length mid = length src -> u8_set (mid ++ post) src 0 = Some (src ++ post).
Proof. intros H. now apply (u8_set_frame [] mid post src 0). Qed.

Lemma u8_store_frame pre x post i v :
  length pre = i ->
  u8_store (pre ++ x :: post) i v = pre ++ JS.ToUint8 v :: post.
Proof.
  intros <-. unfold u8_store.
  replace (length pre) with (length pre + 0)%nat by lia.
  now rewrite insert_app_r.
Qed.

Lemma setUint32_le_frame pre four post off v :
  Z.of_nat (length pre) = off -> length four = 4%nat ->
  setUint32_le (pre ++ four ++ post) off v
  = Some (pre ++ le32 (JS.ToUint32 v) ++ post).
Proof.
  intros <- Hfour. unfold setUint32_le.
  rewrite decide_True by (rewrite !length_app; lia).
  rewrite Nat2Z.id, take_app_length, <- drop_drop, drop_app_length.
  now rewrite <- Hfour, drop_app_length.
Qed.

Lemma setUint32_le_frame_end pre four off v :
  Z.of_nat (length pre) = off -> length four = 4%nat ->
  setUint32_le (pre ++ four) off v = Some (pre ++ le32 (JS.ToUint32 v)).
Proof.
  intros Hpre Hfour.
  pose proof (setUint32_le_frame pre four [] off v Hpre Hfour) as H.
  now rewrite !app_nil_r in H.
Qed.

Lemma length_le_bytes n w : length (le_bytes n w) = n.
Proof. revert w. induction n as [|n IH]; intros w; simpl; [done|]. now rewrite IH. Qed.

Lemma u8array_le_bytes n w : u8array (le_bytes n w).
Proof.
  revert w. induction n as [|n IH]; intros w; simpl; constructor; [|apply IH].
  apply Z.mod_pos_bound. lia.
Qed.

Lemma length_Uint8Array_new n : length (Uint8Array_new n) = n.
Proof. apply length_replicate. Qed.

(** Lengths of lists built from appends, conses, [replicate] and [le_bytes]. *)
Ltac solve_length :=
  unfold le32, Uint8Array_new;
  repeat first
    [ rewrite length_app | rewrite length_replicate | rewrite length_le_bytes
    | rewrite length_cons | rewrite length_nil ];
  lia.

(** ** MD5: pre-processing *)

(** The mask [& ~63] rounds the 32-bit signed value of [msgLen + 72] down
    to a multiple of 64. *)
Lemma padded_length_eq n :
  MD5.padded_length n = 64 * (JS.ToInt32 (n + 72) / 64).
Proof.
  unfold MD5.padded_length, JS.and, JS.not.
  change (JS.ToInt32 (Z.lnot (JS.ToInt32 63))) with (Z.lnot (Z.ones 6)).
  rewrite <- Z.ldiff_land, Z.ldiff_ones_r by lia.
  rewrite Z.shiftl_mul_pow2, Z.shiftr_div_pow2 by lia.
  change (2 ^ 6) with 64. replace (n + 9 + 63) with (n + 72) by lia. lia.
Qed.

Lemma padded_length_small n :
  0 <= n -> n + 72 < 2 ^ 31 -> MD5.padded_length n = 64 * ((n + 72) / 64).
Proof.
  intros Hn Hlt. rewrite padded_length_eq. now rewrite ToInt32_small by lia.
Qed.

(** The padded message, for an input on which the 32-bit length arithmetic
    does not overflow. *)
Lemma preprocess_shape bytes :
  let n := Z.of_nat (length bytes) in
  n + 72 < 2 ^ 31 ->
  exists k : nat,
    Z.of_nat k = 64 * ((n + 72) / 64) - n - 9 /\
    MD5.preprocess bytes
    = Some (bytes ++ 0x80 :: replicate k 0
              ++ le32 (JS.ToUint32 (n * 8)) ++ le32 (JS.ToUint32 0)).
Proof.
  intros n Hlt. unfold MD5.preprocess. fold n.
  rewrite padded_length_small by lia.
  set (P := 64 * ((n + 72) / 64)).
  assert (n + 8 < P <= n + 72) as HP.
  { pose proof (Z.div_mod (n + 72) 64 ltac:(lia)).
    pose proof (Z.mod_pos_bound (n + 72) 64 ltac:(lia)). unfold P. lia. }
  exists (Z.to_nat (P - n - 9)). split. lia.
  set (k := Z.to_nat (P - n - 9)).
  unfold Uint8Array_alloc. destruct (Z.ltb_spec P 0) as [|_]; [lia|].
  unfold Uint8Array_new.
  replace (Z.to_nat P) with (length bytes + (1 + (k + (4 + 4))))%nat by lia.
  rewrite !replicate_add. cbn [mbind option_bind].
  rewrite u8_set_frame_0 by apply length_replicate.
  cbn [mbind option_bind app replicate]. unfold n at 1. rewrite Nat2Z.id.
  rewrite (u8_store_frame bytes 0 _ (length bytes) 128) by done.
  change (JS.ToUint8 128) with 128.
  replace (bytes ++ 128 :: replicate k 0 ++ [0; 0; 0; 0; 0; 0; 0; 0])
    with ((bytes ++ 128 :: replicate k 0) ++ [0; 0; 0; 0] ++ [0; 0; 0; 0])
    by (norm_app; reflexivity).
  rewrite (setUint32_le_frame (bytes ++ 128 :: replicate k 0) [0;0;0;0] [0;0;0;0]).
  - cbn [mbind option_bind].
    replace ((bytes ++ 128 :: replicate k 0)
             ++ le32 (JS.ToUint32 (n * 8)) ++ [0; 0; 0; 0])
      with ((bytes ++ 128 :: replicate k 0 ++ le32 (JS.ToUint32 (n * 8)))
            ++ [0; 0; 0; 0] ++ [])
      by (norm_app; reflexivity).
    rewrite setUint32_le_frame.
    + norm_app. reflexivity.
    + solve_length.
    + done.
  - solve_length.
  - done.
Qed.

(** From [2 ^ 31 - 72] bytes on, the padded length is negative or smaller
    than the message, and pre-processing throws. *)
Lemma preprocess_throws bytes :
  2 ^ 31 <= Z.of_nat (length bytes) + 72 -> MD5.preprocess bytes = None.
Proof.
  intros Hn. unfold MD5.preprocess.
  set (n := Z.of_nat (length bytes)) in *.
  pose proof (padded_length_eq n) as HP.
  set (P := MD5.padded_length n) in *.
  unfold Uint8Array_alloc. destruct (Z.ltb_spec P 0) as [|Hpos]; [done|].
  cbn [mbind option_bind]. unfold u8_set.
  rewrite decide_False; [done|].
  unfold Uint8Array_new. rewrite length_replicate.
  assert (P < n); [|lia].
  pose proof (ToInt32_range (n + 72)) as Hr.
  assert (0 <= JS.ToInt32 (n + 72)) as H0.
  { destruct (Z.le_gt_cases 0 (JS.ToInt32 (n + 72))) as [|Hneg]; [done|].
    pose proof (Z.div_lt_upper_bound (JS.ToInt32 (n + 72)) 64 0). lia. }
  assert (2 ^ 32 <= n + 72).
  { destruct (Z.le_gt_cases (2 ^ 32) (n + 72)) as [|Hlt]; [done|].
    unfold JS.ToInt32 in H0. cbv zeta in H0.
    rewrite Z.mod_small in H0 by lia.
    destruct (Z.ltb_spec (n + 72) (2 ^ 31)); lia. }
  pose proof (Z.mul_div_le (JS.ToInt32 (n + 72)) 64). lia.
Qed.

(** ** MD5: the digest *)

Lemma serialize_result a b c d :
  (result ← setUint32_le (Uint8Array_new 16) 0 a;
   result ← setUint32_le result 4 b;
   result ← setUint32_le result 8 c;
   setUint32_le result 12 d)
  = Some (le32 (JS.ToUint32 a) ++ le32 (JS.ToUint32 b)
          ++ le32 (JS.ToUint32 c) ++ le32 (JS.ToUint32 d)).
Proof.
  change (Uint8Array_new 16)
    with ([] ++ [0; 0; 0; 0] ++ [0; 0; 0; 0] ++ [0; 0; 0; 0] ++ [0; 0; 0; 0]).
  rewrite setUint32_le_frame by done. cbn [mbind option_bind]. rewrite app_nil_l.
  rewrite setUint32_le_frame by solve_length. cbn [mbind option_bind].
  rewrite (app_assoc (le32 _) (le32 _)).
  rewrite setUint32_le_frame by solve_length. cbn [mbind option_bind].
  rewrite (app_assoc (_ ++ _) (le32 _)).
  rewrite setUint32_le_frame_end by solve_length.
  norm_app. reflexivity.
Qed.

(** [md5] fails exactly when pre-processing does, and otherwise returns the
    serialized accumulators. *)
Lemma md5_unfold bytes :
  MD5.md5 bytes
  = msg ← MD5.preprocess bytes;
    Some (MD5.serialize
            (MD5.compress (MD5.padded_length (Z.of_nat (length bytes))) msg)).
Proof.
  unfold MD5.md5. destruct (MD5.preprocess bytes) as [msg|]; [|done].
  cbn [mbind option_bind]. apply serialize_result.
Qed.

Lemma length_serialize h : length (MD5.serialize h) = 16%nat.
Proof. unfold MD5.serialize. solve_length. Qed.

Lemma u8array_serialize h : u8array (MD5.serialize h).
Proof.
  unfold MD5.serialize, le32, u8array.
  rewrite !Forall_app. repeat split; apply u8array_le_bytes.
Qed.

(** Below [2 ^ 31 - 72] bytes [md5] returns 16 bytes. *)
Lemma md5_returns bytes :
  Z.of_nat (length bytes) + 72 < 2 ^ 31 ->
  exists h, MD5.md5 bytes = Some h /\ length h = 16%nat /\ u8array h.
Proof.
  intros Hn. rewrite md5_unfold.
  destruct (preprocess_shape bytes Hn) as (k & _ & ->).
  cbn [mbind option_bind]. eexists. split; [reflexivity|].
  split; [apply length_serialize | apply u8array_serialize].
Qed.

Lemma md5_throws bytes :
  2 ^ 31 <= Z.of_nat (length bytes) + 72 -> MD5.md5 bytes = None.
Proof. intros Hn. rewrite md5_unfold. now rewrite preprocess_throws. Qed.

(** Whatever [md5] returns is 16 bytes long. *)
Lemma md5_length bytes h : MD5.md5 bytes = Some h -> length h = 16%nat.
Proof.
  rewrite md5_unfold. destruct (MD5.preprocess bytes); [|done].
  cbn [mbind option_bind]. intros [= <-]. apply length_serialize.
Qed.

Lemma md5_u8array bytes h : MD5.md5 bytes = Some h -> u8array h.
Proof.
  rewrite md5_unfold. destruct (MD5.preprocess bytes); [|done].
  cbn [mbind option_bind]. intros [= <-]. apply u8array_serialize.
Qed.

Lemma length_zero_bytes n : 0 <= n -> Z.of_nat (length (zero_bytes n)) = n.
Proof. intros Hn. unfold zero_bytes. rewrite length_replicate. lia. Qed.

Lemma u8array_zero_bytes n : u8array (zero_bytes n).
Proof. apply Forall_replicate. unfold is_u8. lia. Qed.

(** ** C4: the digest on long inputs; reference vectors *)

(** C4: [md5] is documented as returning the MD5 hash (16 bytes) of any
    string or [Uint8Array], but its padded length is computed with the 32-bit
    operator [&]: on a [Uint8Array] of [2 ^ 31 - 72] zero bytes
    [(msgLen + 9 + 63) & ~63] wraps to [-2 ^ 31], [new Uint8Array] throws a
    [RangeError] and [md5] returns nothing. *)
Lemma md5_throws_on_2GiB_input :
  u8array (zero_bytes (2 ^ 31 - 72)) /\
  MD5.md5 (zero_bytes (2 ^ 31 - 72)) = None.
Proof.
  split; [apply u8array_zero_bytes|].
  apply md5_throws. rewrite length_zero_bytes; lia.
Qed.



(** ** C5: the padding of the message *)

(** On an input of [2 ^ 29] bytes the bit length is [2 ^ 32]; the source
    stores its low word and a literal 0 as the high word. *)
Lemma preprocess_2_pow_29 bytes :
  Z.of_nat (length bytes) = 2 ^ 29 ->
  exists k : nat,
    MD5.preprocess bytes
    = Some (bytes ++ 0x80 :: replicate k 0 ++ [0; 0; 0; 0; 0; 0; 0; 0]).
Proof.
  intros Hlen.
  destruct (preprocess_shape bytes) as (k & _ & ->); [lia|].
  exists k. rewrite Hlen. reflexivity.
Qed.

Lemma preprocess_2_pow_29_high_word bytes :
  Z.of_nat (length bytes) = 2 ^ 29 ->
  ~ exists k : nat,
      MD5.preprocess bytes
      = Some (bytes ++ 0x80 :: replicate k 0 ++ le_bytes 8 (2 ^ 29 * 8)).
Proof.
  intros Hlen [k Hk].
  destruct (preprocess_2_pow_29 bytes Hlen) as [k' Hk'].
  rewrite Hk' in Hk. injection Hk as Hk.
  apply app_inv_head in Hk. injection Hk as Hk.
  apply app_inj_2 in Hk; [|reflexivity].
  destruct Hk as [_ Hk]. discriminate Hk.
Qed.

(** C5: the source announces "Append length in bits" and then stores the low
    32 bits of the bit length followed by a literal 0 as the high word: for a
    [Uint8Array] of [2 ^ 29] zero bytes (bit length [2 ^ 32]) the padded
    message ends in eight zero bytes, and not in the 64-bit little-endian bit
    length [00 00 00 00 01 00 00 00] of MD5. *)
Lemma preprocess_drops_high_word :
  u8array (zero_bytes (2 ^ 29)) /\
  le_bytes 8 (2 ^ 29 * 8) = [0; 0; 0; 0; 1; 0; 0; 0] /\
  (exists k : nat,
      MD5.preprocess (zero_bytes (2 ^ 29))
      = Some (zero_bytes (2 ^ 29) ++ 0x80 :: replicate k 0
                ++ [0; 0; 0; 0; 0; 0; 0; 0])) /\
  ~ exists k : nat,
      MD5.preprocess (zero_bytes (2 ^ 29))
      = Some (zero_bytes (2 ^ 29) ++ 0x80 :: replicate k 0
                ++ le_bytes 8 (2 ^ 29 * 8)).
Proof.
  assert (Z.of_nat (length (zero_bytes (2 ^ 29))) = 2 ^ 29) as Hlen
    by (rewrite length_zero_bytes; lia).
  split; [apply u8array_zero_bytes|]. split; [reflexivity|].
  split.
  - apply preprocess_2_pow_29, Hlen.
  - apply preprocess_2_pow_29_high_word, Hlen.
Qed.

Lemma le_bytes_8_low w :
  0 <= w < 2 ^ 32 -> le_bytes 8 w = le_bytes 4 w ++ [0; 0; 0; 0].
Proof.
  intros Hw.
  assert (w / 256 / 256 / 256 / 256 = 0) as Hhigh.
  { rewrite !Z.div_div by lia. apply Z.div_small. lia. }
  change (le_bytes 8 w)
    with (le_bytes 4 w ++ le_bytes 4 (w / 256 / 256 / 256 / 256)).
  rewrite Hhigh. reflexivity.
Qed.

(** X21: for every input shorter than [2 ^ 31 - 72] bytes the
    pre-processing returns the input followed by one [0x80] byte, [k < 64]
    zero bytes that bring the length to 56 modulo 64, the low 32 bits of the
    bit length as four little-endian bytes and four zero bytes, so the padded
    length is a multiple of 64; these last eight bytes are the 64-bit
    little-endian bit length when the input is shorter than [2 ^ 29] bytes. *)
Theorem preprocess_padding (bytes : list Z) :
  let n := Z.of_nat (length bytes) in
  n + 72 < 2 ^ 31 ->
  exists (k : nat) (msg : list Z),
    MD5.preprocess bytes = Some msg /\
    msg = bytes ++ [0x80] ++ replicate k 0
            ++ le_bytes 4 ((n * 8) mod 2 ^ 32) ++ [0; 0; 0; 0] /\
    (k < 64)%nat /\
    (n + 1 + Z.of_nat k) mod 64 = 56 /\
    Z.of_nat (length msg) mod 64 = 0 /\
    (n < 2 ^ 29 ->
     le_bytes 4 ((n * 8) mod 2 ^ 32) ++ [0; 0; 0; 0] = le_bytes 8 (n * 8)).
Proof.
  intros n Hlt.
  destruct (preprocess_shape bytes Hlt) as (k & Hk & Hmsg). fold n in Hk, Hmsg.
  pose proof (Z.div_mod (n + 72) 64 ltac:(lia)) as Hdm.
  pose proof (Z.mod_pos_bound (n + 72) 64 ltac:(lia)) as Hmod.
  assert (0 <= n) as Hn by (unfold n; lia).
  exists k, (bytes ++ [0x80] ++ replicate k 0
               ++ le_bytes 4 ((n * 8) mod 2 ^ 32) ++ [0; 0; 0; 0]).
  split; [exact Hmsg|]. split; [reflexivity|]. split; [lia|].
  assert (n + 1 + Z.of_nat k = 64 * ((n + 72) / 64 - 1) + 56) as Hk56 by lia.
  split.
  { rewrite Hk56, Z.add_comm, Z.mul_comm, Z_mod_plus_full. reflexivity. }
  split.
  { replace (Z.of_nat (length (bytes ++ [128] ++ replicate k 0
                ++ le_bytes 4 ((n * 8) mod 2 ^ 32) ++ [0; 0; 0; 0])))
      with (0 + (n + 72) / 64 * 64).
    - rewrite Z_mod_plus_full. reflexivity.
    - fold n in Hk56. revert Hk56. unfold n. solve_length. }
  intros H29. rewrite Z.mod_small by lia.
  symmetry. apply le_bytes_8_low. lia.
Qed.

Lemma preprocess_padding_witness :
  exists (k : nat) (msg : list Z),
    MD5.preprocess [0x61; 0x62; 0x63] = Some msg /\
    msg = [0x61; 0x62; 0x63] ++ [0x80] ++ replicate k 0
            ++ le_bytes 4 24 ++ [0; 0; 0; 0] /\
    (k < 64)%nat /\
    le_bytes 4 24 ++ [0; 0; 0; 0] = le_bytes 8 24.
Proof.
  destruct (preprocess_padding [0x61; 0x62; 0x63])
    as (k & msg & H1 & H2 & H3 & _ & _ & H6).
  - vm_compute. reflexivity.
  - exists k, msg. split; [exact H1|]. split; [exact H2|]. split; [exact H3|].
    apply H6. vm_compute. reflexivity.
Defined.

(** ** RC4 *)

(** One iteration of the loop of [process]. *)
Lemma process_cons st d rest :
  RC4.process st (d :: rest)
  = let i := JS.and (RC4.i st + 1) 0xFF in
    let j := JS.and (RC4.j st + arr_get (RC4.s st) i) 0xFF in
    let s := RC4.swap (RC4.s st) i j in
    let t := JS.and (arr_get s i + arr_get s j) 0xFF in
    let r := RC4.process (RC4.mk s i j) rest in
    (r.1, JS.ToUint8 (JS.xor d (arr_get s t)) :: r.2).
Proof.
  cbn [RC4.process]. cbv zeta.
  now destruct (RC4.process _ rest).
Qed.

Lemma process_length st data : length (RC4.process st data).2 = length data.
Proof.
  revert st. induction data as [|d rest IH]; intros st; [done|].
  rewrite process_cons. cbv zeta. cbn [fst snd length]. now rewrite IH.
Qed.

(** The instance after a call only depends on how many bytes were
    processed. *)
Lemma process_state st d1 d2 :
  length d1 = length d2 -> (RC4.process st d1).1 = (RC4.process st d2).1.
Proof.
  revert st d2. induction d1 as [|x d1 IH]; intros st [|y d2] Hlen;
    try done.
  rewrite !process_cons. cbv zeta. cbn [fst snd]. apply IH. now injection Hlen.
Qed.

(** Processing the output again from the same starting state undoes the
    first call. *)
Lemma process_involutive st data :
  u8array data -> (RC4.process st (RC4.process st data).2).2 = data.
Proof.
  revert st. induction data as [|d rest IH]; intros st Hdata; [done|].
  apply Forall_cons in Hdata as [Hd Hrest].
  rewrite process_cons. cbv zeta. cbn [fst snd].
  rewrite process_cons. cbv zeta. cbn [fst snd].
  rewrite xor_twice by done. f_equal. now apply IH.
Qed.

(** Two calls on one instance are one call on the concatenated data. *)
Lemma process_app st d1 d2 :
  RC4.process st (d1 ++ d2)
  = let r1 := RC4.process st d1 in
    let r2 := RC4.process r1.1 d2 in
    (r2.1, r1.2 ++ r2.2).
Proof.
  revert st. induction d1 as [|d rest IH]; intros st.
  - cbn [app RC4.process fst snd]. now destruct (RC4.process st d2).
  - rewrite <- app_comm_cons, !process_cons. cbv zeta. cbn [fst snd].
    rewrite IH. cbv zeta. cbn [fst snd]. now rewrite app_comm_cons.
Qed.

Lemma encrypt_length key data : length (RC4.encrypt key data) = length data.
Proof. apply process_length. Qed.

(** C8: for every non-empty key and every byte array [data] (the empty one
    included), processing [data] with a fresh instance and the result with a
    second fresh instance of the same key returns [data]; every call of
    [process], on any instance, returns as many bytes as it is given. *)
Theorem rc4_round_trip (key data : list Z) :
  key <> [] -> u8array data ->
  let first := RC4.new key in
  let second := RC4.new key in
  let encrypted := (RC4.process first data).2 in
  (RC4.process second encrypted).2 = data /\
  length encrypted = length data /\
  (forall (st : RC4.t) (input : list Z),
     length (RC4.process st input).2 = length input).
Proof.
  intros _ Hdata. cbv zeta. split; [|split].
  - now apply process_involutive.
  - apply process_length.
  - apply process_length.
Qed.

Lemma rc4_round_trip_witness :
  (RC4.process (RC4.new [0x4b; 0x65; 0x79])
     (RC4.process (RC4.new [0x4b; 0x65; 0x79]) [1; 2; 3; 250]).2).2
  = [1; 2; 3; 250].
Proof.
  refine (proj1 (rc4_round_trip [0x4b; 0x65; 0x79] [1; 2; 3; 250] _ _)).
  - discriminate.
  - unfold u8array, is_u8. repeat constructor; lia.
Defined.

(** C9: an instance continues its keystream: two calls on one instance
    return what a single call on the concatenated data returns, and for the
    key ["Key"] a second call on the bytes [00 00 00 00] returns other bytes
    than a fresh instance of that key does. *)
Theorem rc4_instance_is_stateful :
  (forall (st : RC4.t) (d1 d2 : list Z),
     let r1 := RC4.process st d1 in
     let r2 := RC4.process r1.1 d2 in
     r1.2 ++ r2.2 = (RC4.process st (d1 ++ d2)).2) /\
  (exists key data : list Z,
     key <> [] /\ u8array key /\ u8array data /\
     let reused := (RC4.process (RC4.new key) data).1 in
     (RC4.process reused data).2 <> (RC4.process (RC4.new key) data).2).
Proof.
  split.
  - intros st d1 d2. cbv zeta. now rewrite process_app.
  - exists [0x4b; 0x65; 0x79], [0; 0; 0; 0].
    split; [discriminate|].
    split; [unfold u8array, is_u8; repeat constructor; lia|].
    split; [unfold u8array, is_u8; repeat constructor; lia|].
    vm_compute. discriminate.
Qed.

Lemma ksa_step_empty_key st i : (RC4.ksa_step [] st i).2 = 0.
Proof. now destruct st. Qed.

Lemma ksa_fold_empty_key l st :
  st.2 = 0 -> (fold_left (RC4.ksa_step []) l st).2 = 0.
Proof.
  revert st. induction l as [|i l IH]; intros st Hst; [done|].
  cbn [fold_left]. apply IH, ksa_step_empty_key.
Qed.

(** C10: with a key of length 0 every step of the key schedule reads
    [undefined] ([key[NaN]]), the masked sum is 0 so [j] is 0 after every
    step, and the constructor returns the instance whose table is
    [255, 0, 1, ..., 254], a permutation of the 256 byte values, with both
    cursors at 0; [process] on it returns as many bytes as it is given. *)
Theorem rc4_empty_key :
  (forall i : Z, RC4.key_byte [] i = None) /\
  (forall (st : list Z * Z) (i : Z), (RC4.ksa_step [] st i).2 = 0) /\
  (forall n : Z, (RC4.ksa [] n).2 = 0) /\
  RC4.new [] = RC4.mk (255 :: seqZ 0 255) 0 0 /\
  RC4.s (RC4.new []) ≡ₚ seqZ 0 256 /\
  (forall data : list Z,
     length (RC4.process (RC4.new []) data).2 = length data).
Proof.
  split; [reflexivity|].
  split; [exact ksa_step_empty_key|].
  split; [intros n; now apply ksa_fold_empty_key|].
  assert (RC4.new [] = RC4.mk (255 :: seqZ 0 255) 0 0) as Hnew
    by (vm_compute; reflexivity).
  split; [exact Hnew|]. split.
  - rewrite Hnew. cbn [RC4.s].
    assert (seqZ 0 256 = seqZ 0 255 ++ [255]) as -> by (vm_compute; reflexivity).
    apply Permutation_cons_append.
  - intros data. apply process_length.
Qed.

(** ** padPassword *)

Lemma u8_set_whole tgt src :
  length tgt = length src -> u8_set tgt src 0 = Some src.
Proof.
  intros H. pose proof (u8_set_frame_0 tgt [] src H) as Hset.
  now rewrite !app_nil_r in Hset.
Qed.

Lemma u8_set_frame_end pre mid src off :
  length pre = off -> length mid = length src ->
  u8_set (pre ++ mid) src off = Some (pre ++ src).
Proof.
  intros Hpre Hmid. pose proof (u8_set_frame pre mid [] src off Hpre Hmid) as H.
  now rewrite !app_nil_r in H.
Qed.

Lemma slice_0 arr n : slice arr 0 n = take n arr.
Proof. unfold slice. now rewrite Nat.sub_0_r, drop_0. Qed.

(** [padPassword] never throws; its value in closed form. *)
Lemma padPassword_eq password :
  let b := TextEncoder_encode password in
  padPassword password
  = Some (if decide (32 <= length b)%nat then take 32 b
          else b ++ take (32 - length b) PADDING).
Proof.
  intros b. unfold padPassword. fold b.
  destruct (decide (32 <= length b)%nat) as [Hge|Hlt].
  - rewrite slice_0. apply u8_set_whole.
    rewrite length_Uint8Array_new, length_take. lia.
  - unfold Uint8Array_new.
    replace 32%nat with (length b + (32 - length b))%nat at 1 by lia.
    rewrite replicate_add, u8_set_frame_0 by apply length_replicate.
    cbn [mbind option_bind]. rewrite slice_0.
    apply u8_set_frame_end; [done|].
    rewrite length_replicate, length_take.
    change (length PADDING) with 32%nat. lia.
Qed.

(** C6: for every password, with [p] its encoding, [padPassword] returns 32
    bytes: the first 32 bytes of [p] when [p] has at least 32 bytes, and
    otherwise [p] followed by the first [32 - len(p)] bytes of [PADDING];
    [PADDING] is the published constant, and the empty password gives
    [PADDING] itself. *)
Theorem padPassword_spec (password : string) :
  let p := TextEncoder_encode password in
  (exists padded,
     padPassword password = Some padded /\
     length padded = 32%nat /\
     ((32 <= length p)%nat -> padded = take 32 p) /\
     ((length p < 32)%nat -> padded = p ++ take (32 - length p) PADDING)) /\
  PADDING =
    [ 0x28; 0xBF; 0x4E; 0x5E; 0x4E; 0x75; 0x8A; 0x41; 0x64; 0x00; 0x4E;
      0x56; 0xFF; 0xFA; 0x01; 0x08; 0x2E; 0x2E; 0x00; 0xB6; 0xD0; 0x68;
      0x3E; 0x80; 0x2F; 0x0C; 0xA9; 0xFE; 0x64; 0x53; 0x69; 0x7A ] /\
  padPassword "" = Some PADDING.
Proof.
  intros p. split; [|split; reflexivity].
  pose proof (padPassword_eq password) as Heq. cbv zeta in Heq. fold p in Heq.
  eexists. split; [exact Heq|].
  destruct (decide (32 <= length p)%nat) as [Hge|Hlt].
  - split; [rewrite length_take; lia|]. split; [done|lia].
  - split; [|split; [lia|done]].
    rewrite length_app, length_take. change (length PADDING) with 32%nat. lia.
Qed.

Lemma padPassword_spec_witness :
  (exists padded,
     padPassword "secret123" = Some padded /\
     padded = TextEncoder_encode "secret123" ++ take 23 PADDING) /\
  (exists padded,
     padPassword "0123456789abcdef0123456789abcdef-tail" = Some padded /\
     padded = TextEncoder_encode "0123456789abcdef0123456789abcdef").
Proof.
  split.
  - destruct (padPassword_spec "secret123") as [(padded & Hp & _ & _ & Hlt) _].
    exists padded. split; [exact Hp|].
    apply Hlt. vm_compute. lia.
  - destruct (padPassword_spec "0123456789abcdef0123456789abcdef-tail")
      as [(padded & Hp & _ & Hge & _) _].
    exists padded. split; [exact Hp|].
    apply Hge. vm_compute. lia.
Defined.

Lemma padPassword_pad password :
  padPassword password = Some (Spec.pad (TextEncoder_encode password)).
Proof. apply padPassword_eq. Qed.

Lemma length_pad p : length (Spec.pad p) = 32%nat.
Proof.
  unfold Spec.pad. destruct (decide (32 <= length p)%nat).
  - rewrite length_take. lia.
  - rewrite length_app, length_take. change (length PADDING) with 32%nat. lia.
Qed.

(** ** Loops and stores shared by the key derivations *)

(** A loop whose body ignores the index is an iteration of the body. *)
Lemma fold_left_iter {A} (g : A -> A) (l : list Z) (x : A) :
  fold_left (fun acc _ => g acc) l x = Nat.iter (length l) g x.
Proof.
  revert x. induction l as [|i l IH]; intros x; [done|].
  cbn [fold_left length]. rewrite IH. symmetry. apply Nat.iter_succ_r.
Qed.

Lemma for_range_redigest sel h :
  for_range 0 50 (fun hash _ => MD5.md5 (sel hash)) h = Spec.redigest 50 sel h.
Proof.
  unfold for_range, Spec.redigest, Spec.digest.
  rewrite (fold_left_iter (fun acc => a ← acc; MD5.md5 (sel a))).
  reflexivity.
Qed.

Lemma fold_left_ext_in {A B} (f g : A -> B -> A) (l : list B) (a : A) :
  (forall x b, b ∈ l -> f x b = g x b) -> fold_left f l a = fold_left g l a.
Proof.
  revert a. induction l as [|b l IH]; intros a Hfg; [done|].
  cbn [fold_left]. rewrite Hfg by left. apply IH.
  intros x b' Hb'. apply Hfg. now right.
Qed.

Lemma u8_store_app pre l i v :
  u8_store (pre ++ l) (length pre + i) v = pre ++ u8_store l i v.
Proof. apply insert_app_r. Qed.

Lemma u8_store_app_0 pre l v :
  u8_store (pre ++ l) (length pre) v = pre ++ u8_store l 0 v.
Proof. rewrite <- (Nat.add_0_r (length pre)) at 1. apply u8_store_app. Qed.

(** The byte stored for [x & 0xFF] and for [(x >> s) & 0xFF]. *)
Lemma ToUint8_and_0xFF x : JS.ToUint8 (JS.and x 0xFF) = x mod 256.
Proof. rewrite and_0xFF. unfold JS.ToUint8. apply Z.mod_mod. lia. Qed.

Lemma ToUint8_sar_and_0xFF x s :
  0 <= s <= 24 -> JS.ToUint8 (JS.and (JS.sar x s) 0xFF) = (x / 2 ^ s) mod 256.
Proof.
  intros Hs. rewrite sar_and_0xFF by done. unfold JS.ToUint8.
  apply Z.mod_mod. lia.
Qed.

Lemma le_bytes_4 w :
  le_bytes 4 w
  = [ w mod 256; (w / 2 ^ 8) mod 256; (w / 2 ^ 16) mod 256;
      (w / 2 ^ 24) mod 256 ].
Proof. cbn [le_bytes]. now rewrite !Z.div_div by lia. Qed.

Lemma le_bytes_3 w :
  le_bytes 3 w = [ w mod 256; (w / 2 ^ 8) mod 256; (w / 2 ^ 16) mod 256 ].
Proof. cbn [le_bytes]. now rewrite !Z.div_div by lia. Qed.

Lemma le_bytes_2 w : le_bytes 2 w = [ w mod 256; (w / 2 ^ 8) mod 256 ].
Proof. reflexivity. Qed.

(** ** C1: computeEncryptionKey *)

(** The buffer [hashInput] that [computeEncryptionKey] digests. *)
Lemma computeEncryptionKey_hashInput u o p f :
  computeEncryptionKey u o p f
  = (hash ← MD5.md5 (Spec.pad (TextEncoder_encode u) ++ o ++ le_bytes 4 p ++ f);
     hash ← for_range 0 50 (fun hash _ => MD5.md5 (slice hash 0 16)) hash;
     Some (slice hash 0 16)).
Proof.
  unfold computeEncryptionKey. rewrite padPassword_pad. cbn [mbind option_bind].
  set (pw := Spec.pad (TextEncoder_encode u)).
  unfold Uint8Array_new. rewrite !replicate_add. norm_app.
  rewrite u8_set_frame_0 by apply length_replicate.
  cbn [mbind option_bind Nat.add].
  rewrite u8_set_frame by (done || apply length_replicate).
  cbn [mbind option_bind].
  rewrite (app_assoc pw o), <- (length_app pw o).
  rewrite u8_store_app_0, !u8_store_app.
  unfold u8_store at 1 2 3 4. cbn [replicate app insert list_insert].
  rewrite !ToUint8_sar_and_0xFF, ToUint8_and_0xFF by lia.
  replace ((pw ++ o) ++ _)
    with ((pw ++ o ++ le_bytes 4 p) ++ replicate (length f) 0)
    by (rewrite le_bytes_4; norm_app; reflexivity).
  rewrite u8_set_frame_end by solve_length.
  cbn [mbind option_bind]. norm_app. reflexivity.
Qed.

(** Digests of digests: every step is defined and returns 16 bytes. *)
Lemma redigest_returns n sel h :
  (forall x, length (sel x) <= length x)%nat ->
  length h = 16%nat -> u8array h ->
  exists h', Spec.redigest n sel h = Some h' /\ length h' = 16%nat /\ u8array h'.
Proof.
  intros Hsel Hlen Hu8. induction n as [|n (h' & Hn & Hlen' & Hu8')].
  - exists h. done.
  - unfold Spec.redigest in *. rewrite Nat.iter_succ, Hn. cbn [mbind option_bind].
    apply md5_returns. specialize (Hsel h'). lia.
Qed.

Lemma redigest_length n sel h h' :
  length h = 16%nat -> Spec.redigest n sel h = Some h' -> length h' = 16%nat.
Proof.
  intros Hlen. destruct n as [|n]; unfold Spec.redigest.
  - now intros [= <-].
  - rewrite Nat.iter_succ.
    destruct (Nat.iter n _ _) as [prev|]; [|done]. apply md5_length.
Qed.

(** C1: [computeEncryptionKey] digests
    [pad(userPassword) || ownerKey || permissions as 4 little-endian bytes || fileId],
    digests the first 16 bytes of the working value 50 more times and returns
    the final 16 bytes: it agrees with [Spec.deriveFileKey] on every input,
    every key it returns is 16 bytes long, and it returns one whenever the
    hash input is in the domain of [md5]. *)
Theorem computeEncryptionKey_spec
    (userPassword : string) (ownerKey : list Z) (permissions : Z)
    (fileId : list Z) :
  computeEncryptionKey userPassword ownerKey permissions fileId
  = Spec.deriveFileKey userPassword ownerKey permissions fileId /\
  (forall key,
     computeEncryptionKey userPassword ownerKey permissions fileId = Some key ->
     length key = 16%nat) /\
  (Z.of_nat (32 + length ownerKey + 4 + length fileId) + 72 < 2 ^ 31 ->
   exists key,
     computeEncryptionKey userPassword ownerKey permissions fileId = Some key /\
     length key = 16%nat).
Proof.
  rewrite computeEncryptionKey_hashInput. unfold Spec.deriveFileKey, Spec.digest.
  set (hashInput := Spec.pad _ ++ _).
  assert (forall h, MD5.md5 hashInput = Some h ->
            (hash ← for_range 0 50 (fun hash _ => MD5.md5 (slice hash 0 16)) h;
             Some (slice hash 0 16)) = Spec.redigest 50 (take 16) h) as Hloop.
  { intros h Hh.
    change (for_range 0 50 (fun hash _ => MD5.md5 (slice hash 0 16)) h)
      with (for_range 0 50 (fun hash _ => MD5.md5 (take 16 hash)) h).
    rewrite (for_range_redigest (take 16)).
    destruct (Spec.redigest 50 (take 16) h) as [h'|] eqn:Hh'; [|done].
    cbn [mbind option_bind]. rewrite slice_0.
    rewrite take_ge; [done|].
    apply redigest_length in Hh'; [lia|]. now apply md5_length in Hh. }
  split; [|split].
  - destruct (MD5.md5 hashInput) as [h|] eqn:Hh; [|done].
    cbn [mbind option_bind]. now apply Hloop.
  - intros key. destruct (MD5.md5 hashInput) as [h|] eqn:Hh; [|done].
    cbn [mbind option_bind]. rewrite Hloop by done.
    apply redigest_length. now apply md5_length in Hh.
  - intros Hdom.
    destruct (md5_returns hashInput) as (h & Hh & Hlen & Hu8).
    { revert Hdom. unfold hashInput. rewrite !length_app, length_pad.
      unfold le32. rewrite length_le_bytes. lia. }
    rewrite Hh. cbn [mbind option_bind]. rewrite Hloop by done.
    destruct (redigest_returns 50 (take 16) h) as (h' & Hh' & Hlen' & _);
      [intros x; rewrite length_take; lia|done..|].
    exists h'. done.
Qed.

Lemma computeEncryptionKey_spec_witness :
  exists key,
    computeEncryptionKey "secret123" PADDING 0xFFFFFFFC (zero_bytes 16)
    = Some key /\ length key = 16%nat.
Proof.
  destruct (computeEncryptionKey_spec "secret123" PADDING 0xFFFFFFFC
              (zero_bytes 16)) as (_ & Hlen & Hret).
  destruct Hret as (key & Hkey & _).
  - vm_compute. reflexivity.
  - exists key. split; [exact Hkey|]. apply Hlen. exact Hkey.
Defined.

(** ** C7: encryptObject *)

(** The buffer [keyInput] that [encryptObject] digests. *)
Lemma objectKey_keyInput on gn fk :
  objectKey on gn fk
  = (d ← MD5.md5 (fk ++ le_bytes 3 on ++ le_bytes 2 gn);
     Some (take (Nat.min (length fk + 5) 16) d)).
Proof.
  unfold objectKey.
  unfold Uint8Array_new. rewrite replicate_add.
  rewrite u8_set_frame_0 by apply length_replicate.
  cbn [mbind option_bind].
  rewrite u8_store_app_0, !u8_store_app.
  unfold u8_store at 1 2 3 4 5. cbn [replicate app insert list_insert].
  rewrite !ToUint8_sar_and_0xFF, !ToUint8_and_0xFF by lia.
  rewrite le_bytes_3, le_bytes_2. cbn [app].
  destruct (MD5.md5 _) as [d|]; [|done].
  cbn [mbind option_bind]. rewrite slice_0.
  replace (Z.to_nat (Z.min (Z.of_nat (length fk) + 5) 16))
    with (Nat.min (length fk + 5) 16) by lia.
  reflexivity.
Qed.

(** C7: the key that [encryptObject] gives to the cipher is the first
    [min(len(fileKey) + 5, 16)] bytes of the digest of
    [fileKey || objectNum as 3 little-endian bytes || generationNum as 2
    little-endian bytes], so it has exactly that many bytes, at most 16, and
    the returned payload is the data processed by a fresh cipher instance
    with that key; [encryptObject] agrees with [Spec.encryptPayload] on every
    input and returns whenever the key input is in the domain of [md5]. *)
Theorem encryptObject_spec
    (data : list Z) (objectNum generationNum : Z) (encryptionKey : list Z) :
  objectKey objectNum generationNum encryptionKey
  = Spec.objectKey encryptionKey objectNum generationNum /\
  encryptObject data objectNum generationNum encryptionKey
  = Spec.encryptPayload data encryptionKey objectNum generationNum /\
  (forall key,
     objectKey objectNum generationNum encryptionKey = Some key ->
     length key = Nat.min (length encryptionKey + 5) 16 /\
     (length key <= 16)%nat /\
     encryptObject data objectNum generationNum encryptionKey
     = Some (RC4.process (RC4.new key) data).2) /\
  (Z.of_nat (length encryptionKey + 5) + 72 < 2 ^ 31 ->
   exists key out,
     objectKey objectNum generationNum encryptionKey = Some key /\
     encryptObject data objectNum generationNum encryptionKey = Some out /\
     length out = length data).
Proof.
  pose proof (objectKey_keyInput objectNum generationNum encryptionKey) as Hkey.
  split; [exact Hkey|].
  split; [unfold encryptObject, Spec.encryptPayload; now rewrite Hkey|].
  split.
  - intros key Hsome. unfold encryptObject. rewrite Hsome.
    split; [|split; [|reflexivity]].
    + rewrite Hkey in Hsome.
      destruct (MD5.md5 _) as [d|] eqn:Hd; [|done].
      injection Hsome as <-. apply md5_length in Hd.
      rewrite length_take. lia.
    + rewrite Hkey in Hsome.
      destruct (MD5.md5 _) as [d|] eqn:Hd; [|done].
      injection Hsome as <-. rewrite length_take. lia.
  - intros Hdom. unfold encryptObject. rewrite Hkey.
    destruct (md5_returns (encryptionKey ++ le_bytes 3 objectNum
                             ++ le_bytes 2 generationNum))
      as (d & Hd & _); [revert Hdom; solve_length|].
    rewrite Hd. cbn [mbind option_bind].
    eexists _, _. split; [reflexivity|]. split; [reflexivity|].
    apply encrypt_length.
Qed.

Lemma encryptObject_spec_witness :
  exists key out,
    objectKey 7 0 (zero_bytes 16) = Some key /\
    encryptObject [1; 2; 3; 4; 5] 7 0 (zero_bytes 16) = Some out /\
    length key = 16%nat /\ length out = 5%nat.
Proof.
  destruct (encryptObject_spec [1; 2; 3; 4; 5] 7 0 (zero_bytes 16))
    as (_ & _ & Hlen & Hret).
  destruct Hret as (key & out & Hkey & Hout & Hlenout).
  - vm_compute. reflexivity.
  - exists key, out. split; [exact Hkey|]. split; [exact Hout|].
    split; [apply (Hlen key Hkey)|exact Hlenout].
Defined.

(** ** The XOR-derived keys *)

(** The loop that fills [key] with [base[j] ^ i], after its first [m]
    iterations. *)
Lemma xor_key_prefix base i m :
  (m <= length base)%nat ->
  fold_left (fun key j => u8_store key (Z.to_nat j) (JS.xor (arr_get base j) i))
            (seqZ 0 (Z.of_nat m)) (Uint8Array_new (length base))
  = ((fun b => JS.ToUint8 (JS.xor b i)) <$> take m base)
    ++ replicate (length base - m) 0.
Proof.
  induction m as [|m IH]; intros Hm.
  - cbn. now rewrite take_0, Nat.sub_0_r.
  - rewrite seqZ_S, fold_left_app, IH by lia. cbn [fold_left].
    rewrite Z.add_0_l, Nat2Z.id.
    destruct (lookup_lt_is_Some_2 base m ltac:(lia)) as [x Hx].
    rewrite (take_S_r _ _ x) by done. rewrite fmap_app. cbn [fmap list_fmap].
    replace (length base - m)%nat with (Datatypes.S (length base - Datatypes.S m))
      by lia.
    cbn [replicate]. rewrite u8_store_frame.
    + unfold arr_get. rewrite Nat2Z.id, Hx. cbn [default].
      norm_app. reflexivity.
    + rewrite length_fmap, length_take. lia.
Qed.

Lemma xor_key_map base i :
  xor_key base i = (fun b => JS.ToUint8 (JS.xor b i)) <$> base.
Proof.
  unfold xor_key. rewrite xor_key_prefix by lia.
  now rewrite take_ge, Nat.sub_diag, app_nil_r by lia.
Qed.

(** The derived key is as long as the key it is derived from. *)
Lemma xor_key_length base i : length (xor_key base i) = length base.
Proof. rewrite xor_key_map. apply length_fmap. Qed.

Lemma xor_key_xorKey base i :
  u8array base -> is_u8 i -> xor_key base i = Spec.xorKey base i.
Proof.
  intros Hbase Hi. rewrite xor_key_map. unfold Spec.xorKey.
  apply Forall_fmap_ext_1. eapply Forall_impl; [exact Hbase|].
  intros b Hb. now apply ToUint8_xor_u8.
Qed.

Lemma passes_length base first count payload :
  length (Spec.passes base first count payload) = length payload.
Proof.
  unfold Spec.passes. generalize (seqZ first count) as l. intros l.
  revert payload. induction l as [|k l IH]; intros payload; [done|].
  cbn [fold_left]. rewrite IH. apply process_length.
Qed.

(** ** C3: computeUserKey *)

Lemma computeUserKey_eq fk fid :
  u8array fk -> computeUserKey fk fid = Spec.deriveUserValue fk fid.
Proof.
  intros Hfk. unfold computeUserKey, Spec.deriveUserValue, Spec.digest.
  unfold Uint8Array_new. rewrite replicate_add.
  rewrite u8_set_frame_0 by apply length_replicate. cbn [mbind option_bind].
  rewrite u8_set_frame_end by (done || apply length_replicate).
  cbn [mbind option_bind].
  destruct (MD5.md5 (PADDING ++ fid)) as [d|] eqn:Hd; [|done].
  cbn [mbind option_bind].
  assert (fold_left (fun result i => RC4.encrypt (xor_key fk i) result)
            (seqZ 1 19) (RC4.encrypt fk d)
          = Spec.passes fk 1 19 (Spec.cipher fk d)) as ->.
  { unfold Spec.passes. apply fold_left_ext_in.
    intros x k Hk. apply elem_of_seqZ in Hk.
    rewrite xor_key_xorKey; [done..|unfold is_u8; lia]. }
  assert (length (Spec.passes fk 1 19 (Spec.cipher fk d)) = 16%nat) as Hlen.
  { unfold Spec.cipher. rewrite passes_length, process_length.
    now apply md5_length in Hd. }
  generalize dependent (Spec.passes fk 1 19 (Spec.cipher fk d)).
  intros result Hlen.
  change (replicate 32 0) with (replicate 16 0 ++ replicate 16 0).
  rewrite u8_set_frame_0 by (rewrite length_replicate; lia).
  cbn [mbind option_bind].
  exact (u8_set_frame_end result (replicate 16 0) (replicate 16 0) 16
           Hlen eq_refl).
Qed.

(** C3: on a file key that is a byte array, [computeUserKey] digests
    [PADDING || fileId], encrypts the digest with a cipher keyed by the file
    key, applies passes 1 to 19, pass [i] keyed by the file key XOR-ed byte by
    byte with [i], and appends 16 zero bytes: it agrees with
    [Spec.deriveUserValue]; every XOR-derived key is as long as the file key;
    what it returns is 32 bytes long, and it returns whenever
    [PADDING || fileId] is in the domain of [md5]. *)
Theorem computeUserKey_spec (encryptionKey fileId : list Z) :
  u8array encryptionKey ->
  computeUserKey encryptionKey fileId
  = Spec.deriveUserValue encryptionKey fileId /\
  (forall i : Z,
     1 <= i <= 19 ->
     xor_key encryptionKey i = Spec.xorKey encryptionKey i /\
     length (xor_key encryptionKey i) = length encryptionKey) /\
  (forall value,
     computeUserKey encryptionKey fileId = Some value ->
     length value = 32%nat /\ drop 16 value = replicate 16 0) /\
  (Z.of_nat (32 + length fileId) + 72 < 2 ^ 31 ->
   exists value, computeUserKey encryptionKey fileId = Some value).
Proof.
  intros Hfk. rewrite computeUserKey_eq by done.
  split; [reflexivity|]. split.
  { intros i Hi. split; [|apply xor_key_length].
    apply xor_key_xorKey; [done|unfold is_u8; lia]. }
  unfold Spec.deriveUserValue, Spec.digest. split.
  - intros value.
    destruct (MD5.md5 (PADDING ++ fileId)) as [d|] eqn:Hd; [|done].
    cbn [mbind option_bind]. intros Hvalue.
    apply (inj Some) in Hvalue. subst value.
    assert (length (Spec.passes encryptionKey 1 19 (Spec.cipher encryptionKey d))
            = 16%nat) as Hlen.
    { unfold Spec.cipher. rewrite passes_length, process_length.
      now apply md5_length in Hd. }
    split; [rewrite length_app, length_replicate; lia|].
    rewrite <- Hlen at 1. apply drop_app_length.
  - intros Hdom.
    destruct (md5_returns (PADDING ++ fileId)) as (d & -> & _).
    { revert Hdom. rewrite length_app. change (length PADDING) with 32%nat. lia. }
    cbn [mbind option_bind]. eauto.
Qed.

Lemma computeUserKey_spec_witness :
  computeUserKey [1; 2; 3; 4; 5] (zero_bytes 16)
  = Spec.deriveUserValue [1; 2; 3; 4; 5] (zero_bytes 16) /\
  length (xor_key [1; 2; 3; 4; 5] 7) = 5%nat /\
  exists value, computeUserKey [1; 2; 3; 4; 5] (zero_bytes 16) = Some value
                /\ length value = 32%nat.
Proof.
  destruct (computeUserKey_spec [1; 2; 3; 4; 5] (zero_bytes 16))
    as (Heq & Hkey & Hlen & Hret).
  - unfold u8array, is_u8. repeat constructor; lia.
  - split; [exact Heq|]. split.
    + apply (Hkey 7). lia.
    + destruct Hret as [value Hvalue].
      * vm_compute. reflexivity.
      * exists value. split; [exact Hvalue|]. apply (Hlen value Hvalue).
Defined.

(** ** C2: computeOwnerKey *)

Lemma or_else_effective ownerPassword userPassword :
  or_else ownerPassword userPassword
  = Spec.effective ownerPassword userPassword.
Proof. now destruct ownerPassword as [[|a s]|]. Qed.

(** The 16-byte key that the 51 digests of a padded password produce. *)
Lemma owner_base_key password :
  exists h base,
    MD5.md5 (Spec.pad (TextEncoder_encode password)) = Some h /\
    Spec.redigest 50 id h = Some base /\
    length base = 16%nat /\ u8array base.
Proof.
  destruct (md5_returns (Spec.pad (TextEncoder_encode password)))
    as (h & Hh & Hlen & Hu8); [rewrite length_pad; lia|].
  destruct (redigest_returns 50 id h) as (base & Hbase & Hlen' & Hu8');
    [done..|].
  exists h, base. done.
Qed.

Lemma computeOwnerKey_eq ownerPassword userPassword :
  computeOwnerKey ownerPassword userPassword
  = Spec.deriveOwnerValue ownerPassword userPassword.
Proof.
  unfold computeOwnerKey, Spec.deriveOwnerValue, Spec.digest.
  rewrite !padPassword_pad, or_else_effective. cbn [mbind option_bind].
  destruct (owner_base_key (Spec.effective ownerPassword userPassword))
    as (h & base & -> & Hbase & Hlen & Hu8).
  cbn [mbind option_bind].
  change (for_range 0 50 (fun hash _ => MD5.md5 hash) h)
    with (for_range 0 50 (fun hash _ => MD5.md5 (id hash)) h).
  rewrite (for_range_redigest id), Hbase. cbn [mbind option_bind].
  f_equal. unfold Spec.passes. apply fold_left_ext_in.
  intros result k Hk. apply elem_of_seqZ in Hk.
  rewrite slice_0, take_ge by (rewrite xor_key_length; lia).
  rewrite xor_key_xorKey; [done..|unfold is_u8; lia].
Qed.

(** C2: [computeOwnerKey] takes the owner password when it is provided and
    non-empty and the user password otherwise, digests its padding, digests
    the 16-byte result 50 more times, and applies to [pad(userPassword)] 20
    cipher passes in sequence, pass [k] with a fresh instance keyed by the
    16-byte base key XOR-ed byte by byte with [k]: it agrees with
    [Spec.deriveOwnerValue], and it always returns a value of 32 bytes. *)
Theorem computeOwnerKey_spec (ownerPassword : option string)
    (userPassword : string) :
  computeOwnerKey ownerPassword userPassword
  = Spec.deriveOwnerValue ownerPassword userPassword /\
  (exists h base value,
     MD5.md5 (Spec.pad (TextEncoder_encode
                          (Spec.effective ownerPassword userPassword)))
     = Some h /\
     Spec.redigest 50 id h = Some base /\
     length base = 16%nat /\
     value = Spec.passes base 0 20 (Spec.pad (TextEncoder_encode userPassword)) /\
     computeOwnerKey ownerPassword userPassword = Some value /\
     length value = 32%nat).
Proof.
  split; [apply computeOwnerKey_eq|].
  rewrite computeOwnerKey_eq. unfold Spec.deriveOwnerValue, Spec.digest.
  destruct (owner_base_key (Spec.effective ownerPassword userPassword))
    as (h & base & Hh & Hbase & Hlen & Hu8).
  exists h, base, (Spec.passes base 0 20 (Spec.pad (TextEncoder_encode userPassword))).
  rewrite Hh. cbn [mbind option_bind]. rewrite Hbase. cbn [mbind option_bind].
  repeat split; try done.
  rewrite passes_length. apply length_pad.
Qed.

(** * Further properties of the source *)

(** ** RC4: the table stays a permutation *)

Lemma and_0xFF_range x : 0 <= JS.and x 0xFF < 256.
Proof. rewrite and_0xFF. apply Z.mod_pos_bound. lia. Qed.

Lemma mask_range x : 0 <= RC4.mask x < 256.
Proof. destruct x as [v|]; cbn [RC4.mask]; [apply and_0xFF_range|lia]. Qed.

Lemma table_length s : s ≡ₚ seqZ 0 256 -> length s = 256%nat.
Proof. intros ->. now rewrite length_seqZ. Qed.

Lemma table_bytes s : s ≡ₚ seqZ 0 256 -> u8array s.
Proof.
  intros Hs. unfold u8array. rewrite Hs. apply Forall_seqZ. unfold is_u8. lia.
Qed.

(** The swap of the source exchanges two entries of the table. *)
Lemma swap_Permutation s a b :
  s ≡ₚ seqZ 0 256 -> 0 <= a < 256 -> 0 <= b < 256 -> RC4.swap s a b ≡ₚ s.
Proof.
  intros Hs Ha Hb.
  pose proof (table_length s Hs) as Hlen.
  pose proof (table_bytes s Hs) as Hbytes.
  destruct (lookup_lt_is_Some_2 s (Z.to_nat a) ltac:(lia)) as [x Hx].
  destruct (lookup_lt_is_Some_2 s (Z.to_nat b) ltac:(lia)) as [y Hy].
  unfold RC4.swap, u8_store, arr_get. rewrite Hx, Hy. cbn [default].
  rewrite !ToUint8_id
    by (eapply (proj1 (Forall_lookup _ _) Hbytes); eassumption).
  now apply Permutation_insert_swap.
Qed.

Lemma ksa_step_invariant key s j i :
  s ≡ₚ seqZ 0 256 -> 0 <= i < 256 ->
  (RC4.ksa_step key (s, j) i).1 ≡ₚ seqZ 0 256.
Proof.
  intros Hs Hi. cbn [RC4.ksa_step fst].
  rewrite swap_Permutation; [done..|apply mask_range].
Qed.

Lemma ksa_fold_invariant key l st :
  st.1 ≡ₚ seqZ 0 256 -> Forall (fun i => 0 <= i < 256) l ->
  (fold_left (RC4.ksa_step key) l st).1 ≡ₚ seqZ 0 256.
Proof.
  revert st. induction l as [|i l IH]; intros [s j] Hs Hl; [done|].
  apply Forall_cons in Hl as [Hi Hl]. cbn [fold_left].
  apply IH; [|done].
  now apply ksa_step_invariant.
Qed.

Lemma new_invariant key : rc4_invariant (RC4.new key).
Proof.
  unfold rc4_invariant, RC4.new. cbn [RC4.s RC4.i RC4.j].
  split; [|lia]. unfold RC4.ksa. apply ksa_fold_invariant.
  - cbn [fst].
    assert (RC4.identity = seqZ 0 256) as -> by (vm_compute; reflexivity).
    reflexivity.
  - apply Forall_seqZ. lia.
Qed.

Lemma process_invariant st data :
  rc4_invariant st -> rc4_invariant (RC4.process st data).1.
Proof.
  revert st. induction data as [|d rest IH]; intros st Hst; [done|].
  rewrite process_cons. cbv zeta. cbn [fst]. apply IH.
  destruct Hst as (Hs & Hi & Hj).
  unfold rc4_invariant. cbn [RC4.s RC4.i RC4.j].
  split; [|split; apply and_0xFF_range].
  rewrite swap_Permutation; [done..|apply and_0xFF_range|apply and_0xFF_range].
Qed.

Lemma process_bytes st data : u8array (RC4.process st data).2.
Proof.
  revert st. induction data as [|d rest IH]; intros st; [constructor|].
  rewrite process_cons. cbv zeta. cbn [snd].
  constructor; [apply ToUint8_range|apply IH].
Qed.

(** X1: for every key, the table of a new instance is a permutation of the
    byte values 0..255 with both cursors at 0, and after [process] on any
    data the table is still such a permutation and the cursors are still
    bytes; by [process_app] this covers any number of calls. *)
Theorem rc4_table_stays_permutation (key data : list Z) :
  let fresh := RC4.new key in
  let used := (RC4.process fresh data).1 in
  RC4.s fresh ≡ₚ seqZ 0 256 /\ RC4.i fresh = 0 /\ RC4.j fresh = 0 /\
  RC4.s used ≡ₚ seqZ 0 256 /\
  0 <= RC4.i used < 256 /\ 0 <= RC4.j used < 256.
Proof.
  cbv zeta.
  pose proof (new_invariant key) as Hnew.
  pose proof (process_invariant _ data Hnew) as (Hs & Hi & Hj).
  destruct Hnew as (Hs0 & _ & _).
  repeat split; try done; lia.
Qed.

(** ** RC4: keys that give the same cipher *)

Lemma ksa_ext key1 key2 :
  (forall i, 0 <= i < 256 -> RC4.key_byte key1 i = RC4.key_byte key2 i) ->
  RC4.new key1 = RC4.new key2.
Proof.
  intros Hkey. unfold RC4.new, RC4.ksa. do 2 f_equal.
  apply fold_left_ext_in. intros [s j] i Hi. apply elem_of_seqZ in Hi.
  cbn [RC4.ksa_step]. now rewrite Hkey by lia.
Qed.

Lemma key_byte_small key i :
  0 <= i < Z.of_nat (length key) -> RC4.key_byte key i = key !! Z.to_nat i.
Proof.
  intros Hi. unfold RC4.key_byte, JS.rem.
  destruct (Z.eqb_spec (Z.of_nat (length key)) 0) as [|_]; [lia|].
  cbn [mbind option_bind]. now rewrite Z.rem_small by lia.
Qed.

Lemma key_byte_mod key i :
  0 <= i -> key <> [] ->
  RC4.key_byte key i = key !! Z.to_nat (i mod Z.of_nat (length key)).
Proof.
  intros Hi Hkey. unfold RC4.key_byte, JS.rem.
  assert (0 < Z.of_nat (length key)) by (destruct key; [done|cbn; lia]).
  destruct (Z.eqb_spec (Z.of_nat (length key)) 0) as [|_]; [lia|].
  cbn [mbind option_bind]. now rewrite Z.rem_mod_nonneg by lia.
Qed.

Lemma key_byte_doubled key i :
  0 <= i -> RC4.key_byte (key ++ key) i = RC4.key_byte key i.
Proof.
  intros Hi. destruct key as [|x key']; [done|].
  set (key := x :: key').
  rewrite !key_byte_mod by done. rewrite length_app.
  set (n := Z.of_nat (length key)).
  assert (0 < n) by (unfold n, key; cbn; lia).
  replace (Z.of_nat (length key + length key)) with (2 * n) by lia.
  pose proof (Z.mod_pos_bound i (2 * n) ltac:(lia)) as Hm.
  assert ((i mod (2 * n)) mod n = i mod n) as Hmm.
  { rewrite (Z.mul_comm 2 n), Z.rem_mul_r by lia.
    rewrite Z.mul_comm, Z_mod_plus_full. apply Z.mod_mod. lia. }
  destruct (Z.lt_ge_cases (i mod (2 * n)) n) as [Hlt|Hge].
  - rewrite lookup_app_l by lia. f_equal. f_equal.
    rewrite <- Hmm. symmetry. apply Z.mod_small. lia.
  - rewrite lookup_app_r by lia. f_equal.
    assert (i mod n = i mod (2 * n) - n) as ->; [|lia].
    rewrite <- Hmm.
    replace (i mod (2 * n)) with ((i mod (2 * n) - n) + 1 * n) at 1 by lia.
    rewrite Z_mod_plus_full. apply Z.mod_small. lia.
Qed.

(** X2: the key schedule only sees [key[i % key.length]] for [i < 256], so a
    key written twice in a row gives the same instance as the key itself,
    and only the first 256 bytes of a key are used. *)
Theorem rc4_equivalent_keys (key : list Z) :
  RC4.new (key ++ key) = RC4.new key /\
  RC4.new (take 256 key) = RC4.new key /\
  (forall data, RC4.encrypt (key ++ key) data = RC4.encrypt key data).
Proof.
  assert (RC4.new (key ++ key) = RC4.new key) as Hdouble.
  { apply ksa_ext. intros i Hi. apply key_byte_doubled. lia. }
  split; [exact Hdouble|]. split.
  - destruct (Nat.le_gt_cases (length key) 256) as [Hle|Hgt].
    { now rewrite take_ge. }
    apply ksa_ext. intros i Hi.
    rewrite !key_byte_small by (rewrite ?length_take; lia).
    apply lookup_take_lt. lia.
  - intros data. unfold RC4.encrypt. now rewrite Hdouble.
Qed.

(** ** RC4: two texts under one key *)

Lemma process_xor st a b :
  u8array a -> u8array b ->
  zip_with Z.lxor (RC4.process st a).2 (RC4.process st b).2
  = zip_with Z.lxor a b.
Proof.
  revert st b. induction a as [|x a IH]; intros st [|y b] Ha Hb;
    try done.
  { change (RC4.process st []).2 with (@nil Z). now rewrite !zip_with_nil_r. }
  apply Forall_cons in Ha as [Hx Ha]. apply Forall_cons in Hb as [Hy Hb].
  rewrite !process_cons. cbv zeta. cbn [snd zip_with].
  rewrite IH by done. f_equal.
  rewrite !ToUint8_xor.
  unfold is_u8 in Hx, Hy. rewrite (Z.mod_small x), (Z.mod_small y) by lia.
  set (k := _ mod 256).
  rewrite (Z.lxor_comm y k), Z.lxor_assoc, <- (Z.lxor_assoc k k y).
  now rewrite Z.lxor_nilpotent, Z.lxor_0_l.
Qed.

(** X3: two byte arrays processed by fresh instances of the same key are
    XOR-ed with the same keystream: the XOR of the two outputs is the XOR of
    the two inputs, whatever the key. *)
Theorem rc4_same_key_leaks_xor (key a b : list Z) :
  u8array a -> u8array b ->
  zip_with Z.lxor (RC4.encrypt key a) (RC4.encrypt key b)
  = zip_with Z.lxor a b.
Proof. intros Ha Hb. now apply process_xor. Qed.

Lemma rc4_same_key_leaks_xor_witness :
  zip_with Z.lxor (RC4.encrypt [1; 2; 3] [10; 20; 30])
                  (RC4.encrypt [1; 2; 3] [7; 7; 7])
  = zip_with Z.lxor [10; 20; 30] [7; 7; 7].
Proof.
  apply (rc4_same_key_leaks_xor [1; 2; 3] [10; 20; 30] [7; 7; 7]);
    unfold u8array, is_u8; repeat constructor; lia.
Defined.

(** ** MD5: the inputs it accepts, and the padding *)

(** X4: [md5] throws (a [RangeError] from the typed-array calls of the
    pre-processing) exactly on the inputs of at least [2 ^ 31 - 72] bytes, and
    otherwise returns a digest. *)
Theorem md5_throws_iff (bytes : list Z) :
  MD5.md5 bytes = None <-> 2 ^ 31 <= Z.of_nat (length bytes) + 72.
Proof.
  split.
  - intros Hnone.
    destruct (Z.le_gt_cases (2 ^ 31) (Z.of_nat (length bytes) + 72)) as [|Hlt];
      [done|].
    destruct (md5_returns bytes ltac:(lia)) as (h & Hh & _). congruence.
  - apply md5_throws.
Qed.

(** The bytes [le_bytes n] determine the number modulo [256 ^ n]. *)
Lemma le_bytes_inj n x y :
  le_bytes n x = le_bytes n y ->
  x mod 256 ^ Z.of_nat n = y mod 256 ^ Z.of_nat n.
Proof.
  revert x y. induction n as [|n IH]; intros x y Heq.
  - now rewrite !Z.mod_1_r.
  - cbn [le_bytes] in Heq. injection Heq as H0 Hrest.
    apply IH in Hrest.
    rewrite Nat2Z.inj_succ, Z.pow_succ_r by lia.
    rewrite !Z.rem_mul_r by lia. now rewrite H0, Hrest.
Qed.

Lemma le_bytes_4_inj x y :
  0 <= x < 2 ^ 32 -> 0 <= y < 2 ^ 32 -> le_bytes 4 x = le_bytes 4 y -> x = y.
Proof.
  intros Hx Hy Heq. apply le_bytes_inj in Heq.
  change (256 ^ Z.of_nat 4) with (2 ^ 32) in Heq.
  now rewrite !Z.mod_small in Heq by lia.
Qed.

Lemma preprocess_inj b1 b2 m :
  MD5.preprocess b1 = Some m -> MD5.preprocess b2 = Some m -> b1 = b2.
Proof.
  intros H1 H2.
  set (n1 := Z.of_nat (length b1)). set (n2 := Z.of_nat (length b2)).
  assert (n1 + 72 < 2 ^ 31) as Hd1.
  { destruct (Z.le_gt_cases (2 ^ 31) (n1 + 72)) as [Hge|]; [|done].
    apply preprocess_throws in Hge. congruence. }
  assert (n2 + 72 < 2 ^ 31) as Hd2.
  { destruct (Z.le_gt_cases (2 ^ 31) (n2 + 72)) as [Hge|]; [|done].
    apply preprocess_throws in Hge. congruence. }
  destruct (preprocess_shape b1 Hd1) as (k1 & Hk1 & Hs1).
  destruct (preprocess_shape b2 Hd2) as (k2 & Hk2 & Hs2).
  fold n1 in Hk1, Hs1. fold n2 in Hk2, Hs2.
  rewrite H1 in Hs1. rewrite H2 in Hs2.
  apply (inj Some) in Hs1. apply (inj Some) in Hs2. subst m.
  assert ((b1 ++ 128 :: replicate k1 0)
            ++ le32 (JS.ToUint32 (n1 * 8)) ++ le32 (JS.ToUint32 0)
          = (b2 ++ 128 :: replicate k2 0)
            ++ le32 (JS.ToUint32 (n2 * 8)) ++ le32 (JS.ToUint32 0)) as Heq.
  { norm_app. norm_app. exact Hs2. }
  apply app_inj_2 in Heq as [Hpre Htail]; [|solve_length].
  apply app_inj_1 in Htail as [Hlow _]; [|solve_length].
  apply le_bytes_4_inj in Hlow;
    [|unfold JS.ToUint32; apply Z.mod_pos_bound; lia..].
  unfold JS.ToUint32 in Hlow.
  assert (n1 = n2) as Hn.
  { apply (f_equal length) in Hpre. revert Hpre.
    rewrite !length_app, !length_cons, !length_replicate. intros Hpre.
    assert (Z.of_nat (length b1) = n1) as Hl1 by reflexivity.
    assert (Z.of_nat (length b2) = n2) as Hl2 by reflexivity.
    clearbody n1 n2.
    assert (n1 + Z.of_nat k1 = n2 + Z.of_nat k2) as Hsum by lia.
    assert (64 * ((n1 + 72) / 64) = 64 * ((n2 + 72) / 64)) as Hq by lia.
    pose proof (Z.div_mod (n1 + 72) 64 ltac:(lia)) as Hdm1.
    pose proof (Z.div_mod (n2 + 72) 64 ltac:(lia)) as Hdm2.
    pose proof (Z.mod_pos_bound (n1 + 72) 64 ltac:(lia)) as Hb1.
    pose proof (Z.mod_pos_bound (n2 + 72) 64 ltac:(lia)) as Hb2.
    assert (- 64 < n1 - n2 < 64) as Hclose by lia.
    assert (forall a b, 0 <= a - b < 2 ^ 32 ->
              a mod 2 ^ 32 = b mod 2 ^ 32 -> a = b) as Hmod.
    { intros a b Hab Hmod.
      assert ((a - b) mod 2 ^ 32 = 0) as H0
        by (rewrite Zminus_mod, Hmod, Z.sub_diag; reflexivity).
      rewrite Z.mod_small in H0 by done. lia. }
    destruct (Z.le_gt_cases n2 n1).
    - assert (n1 * 8 = n2 * 8); [apply Hmod; [lia|done]|lia].
    - assert (n2 * 8 = n1 * 8); [apply Hmod; [lia|done]|lia]. }
  apply app_inj_1 in Hpre as [Hb _]; [done|]. unfold n1, n2 in Hn. lia.
Qed.

(** X5: the padding is injective: an input on which pre-processing succeeds
    never shares its padded message with a different input. *)
Theorem preprocess_injective (b1 b2 : list Z) :
  Z.of_nat (length b1) + 72 < 2 ^ 31 -> b1 <> b2 ->
  MD5.preprocess b1 <> MD5.preprocess b2.
Proof.
  intros Hdom Hne Heq.
  destruct (preprocess_shape b1 Hdom) as (k & _ & Hshape).
  rewrite Hshape in Heq. symmetry in Heq.
  apply Hne. eapply preprocess_inj; eassumption.
Qed.

Lemma preprocess_injective_witness : MD5.preprocess [1] <> MD5.preprocess [1; 0].
Proof.
  apply (preprocess_injective [1] [1; 0]).
  - vm_compute. reflexivity.
  - discriminate.
Defined.

(** ** Key derivation: what the inputs are reduced to *)

Lemma le_bytes_wrap n w a :
  le_bytes n (w + a * 256 ^ Z.of_nat n) = le_bytes n w.
Proof.
  revert w a. induction n as [|n IH]; intros w a; [done|].
  cbn [le_bytes]. rewrite Nat2Z.inj_succ, Z.pow_succ_r by lia.
  replace (w + a * (256 * 256 ^ Z.of_nat n))
    with (w + a * 256 ^ Z.of_nat n * 256) by lia.
  rewrite Z_mod_plus_full, Z.div_add by lia. now rewrite IH.
Qed.

Lemma pad_long p1 p2 :
  (32 <= length p1)%nat -> take 32 p1 = take 32 p2 -> Spec.pad p1 = Spec.pad p2.
Proof.
  intros Hlen Htake.
  assert (32 <= length p2)%nat.
  { apply (f_equal length) in Htake. rewrite !length_take in Htake. lia. }
  unfold Spec.pad. now rewrite !decide_True by done.
Qed.

(** X6: only the first 32 bytes of a password are used: two passwords of at
    least 32 bytes that agree on their first 32 bytes get the same padded
    password, and give the same file key and the same Owner value, as user
    password and as owner password. *)
Theorem password_truncated_to_32_bytes (p1 p2 : string)
    (ownerPassword : option string) (ownerKey : list Z) (permissions : Z)
    (fileId : list Z) :
  (32 <= length (TextEncoder_encode p1))%nat ->
  take 32 (TextEncoder_encode p1) = take 32 (TextEncoder_encode p2) ->
  padPassword p1 = padPassword p2 /\
  computeEncryptionKey p1 ownerKey permissions fileId
  = computeEncryptionKey p2 ownerKey permissions fileId /\
  computeOwnerKey ownerPassword p1 = computeOwnerKey ownerPassword p2 /\
  (forall userPassword,
     computeOwnerKey (Some p1) userPassword
     = computeOwnerKey (Some p2) userPassword).
Proof.
  intros Hlen Htake.
  pose proof (pad_long _ _ Hlen Htake) as Hpad.
  assert (padPassword p1 = padPassword p2) as Hpp
    by now rewrite !padPassword_pad, Hpad.
  split; [exact Hpp|]. split; [|split].
  - now rewrite !computeEncryptionKey_hashInput, Hpad.
  - unfold computeOwnerKey. rewrite Hpp.
    assert (padPassword (or_else ownerPassword p1)
            = padPassword (or_else ownerPassword p2)) as ->; [|done].
    destruct ownerPassword as [o|]; cbn [or_else]; [|done].
    now destruct (String.eqb o "").
  - intros userPassword. unfold computeOwnerKey.
    assert (padPassword (or_else (Some p1) userPassword)
            = padPassword (or_else (Some p2) userPassword)) as ->; [|done].
    assert (p1 <> ""%string) as Hne1 by (intros ->; vm_compute in Hlen; lia).
    assert (p2 <> ""%string) as Hne2.
    { intros ->. apply (f_equal length) in Htake.
      rewrite !length_take in Htake.
      change (length (TextEncoder_encode "")) with 0%nat in Htake. lia. }
    cbn [or_else].
    destruct (String.eqb_spec p1 ""), (String.eqb_spec p2 ""); done.
Qed.

Lemma password_truncated_to_32_bytes_witness :
  computeEncryptionKey "0123456789abcdef0123456789abcdef-one" PADDING (-4) []
  = computeEncryptionKey "0123456789abcdef0123456789abcdef-two" PADDING (-4) [].
Proof.
  refine (proj1 (proj2 (password_truncated_to_32_bytes
            "0123456789abcdef0123456789abcdef-one"
            "0123456789abcdef0123456789abcdef-two" None PADDING (-4) [] _ _))).
  - vm_compute. lia.
  - vm_compute. reflexivity.
Defined.

(** X7: only the low 32 bits of [permissions] reach the hash input, as four
    little-endian bytes: permissions that differ by a multiple of [2 ^ 32]
    give the same file key, so [0xFFFFFFFC] and [-4] are the same
    permissions. *)
Theorem permissions_modulo_2_pow_32 (userPassword : string)
    (ownerKey : list Z) (permissions k : Z) (fileId : list Z) :
  computeEncryptionKey userPassword ownerKey (permissions + k * 2 ^ 32) fileId
  = computeEncryptionKey userPassword ownerKey permissions fileId /\
  computeEncryptionKey userPassword ownerKey 0xFFFFFFFC fileId
  = computeEncryptionKey userPassword ownerKey (-4) fileId.
Proof.
  assert (forall p a, computeEncryptionKey userPassword ownerKey (p + a * 2 ^ 32) fileId
                      = computeEncryptionKey userPassword ownerKey p fileId) as H.
  { intros p a. rewrite !computeEncryptionKey_hashInput.
    change (2 ^ 32) with (256 ^ Z.of_nat 4). now rewrite le_bytes_wrap. }
  split; [apply H|]. apply (H (-4) 1).
Qed.

(** ** encryptObject: decryption and the object address *)

(** X8: [encryptObject] is its own inverse on byte arrays: applied to its
    own output with the same object number, generation number and key it
    returns the original data (and it throws the second time only if it
    threw the first time). *)
Theorem encryptObject_involutive (data : list Z) (objectNum generationNum : Z)
    (encryptionKey : list Z) :
  u8array data ->
  (encrypted ← encryptObject data objectNum generationNum encryptionKey;
   encryptObject encrypted objectNum generationNum encryptionKey)
  = (_ ← encryptObject data objectNum generationNum encryptionKey; Some data).
Proof.
  intros Hdata. unfold encryptObject.
  destruct (objectKey objectNum generationNum encryptionKey) as [key|]; [|done].
  cbn [mbind option_bind]. unfold RC4.encrypt.
  now rewrite process_involutive.
Qed.

Lemma encryptObject_involutive_witness :
  (encrypted ← encryptObject [72; 105; 33] 7 0 (zero_bytes 16);
   encryptObject encrypted 7 0 (zero_bytes 16))
  = (_ ← encryptObject [72; 105; 33] 7 0 (zero_bytes 16); Some [72; 105; 33]).
Proof.
  apply (encryptObject_involutive [72; 105; 33] 7 0 (zero_bytes 16)).
  unfold u8array, is_u8. repeat constructor; lia.
Defined.

(** X9: the key input holds three bytes of the object number and two of the
    generation number: object numbers that differ by a multiple of [2 ^ 24]
    and generation numbers that differ by a multiple of [2 ^ 16] get the same
    per-object key and the same ciphertext. *)
Theorem encryptObject_address_wraps (data : list Z)
    (objectNum generationNum a b : Z) (encryptionKey : list Z) :
  objectKey (objectNum + a * 2 ^ 24) (generationNum + b * 2 ^ 16) encryptionKey
  = objectKey objectNum generationNum encryptionKey /\
  encryptObject data (objectNum + a * 2 ^ 24) (generationNum + b * 2 ^ 16)
                encryptionKey
  = encryptObject data objectNum generationNum encryptionKey.
Proof.
  assert (objectKey (objectNum + a * 2 ^ 24) (generationNum + b * 2 ^ 16)
                    encryptionKey
          = objectKey objectNum generationNum encryptionKey) as Hkey.
  { rewrite !objectKey_keyInput.
    change (2 ^ 24) with (256 ^ Z.of_nat 3).
    change (2 ^ 16) with (256 ^ Z.of_nat 2).
    now rewrite !le_bytes_wrap. }
  split; [exact Hkey|]. unfold encryptObject. now rewrite Hkey.
Qed.

(** ** The Owner and User values can be read back *)

Lemma u8array_encode s : u8array (TextEncoder_encode s).
Proof.
  unfold TextEncoder_encode, u8array. apply Forall_fmap, Forall_forall.
  intros a _. unfold compose, is_u8.
  pose proof (N_ascii_bounded a). lia.
Qed.

Lemma u8array_PADDING : u8array PADDING.
Proof. unfold u8array, is_u8, PADDING. repeat constructor; lia. Qed.

Lemma u8array_pad p : u8array p -> u8array (Spec.pad p).
Proof.
  intros Hp. unfold Spec.pad, u8array in *. destruct (decide _).
  - now apply Forall_take.
  - apply Forall_app. split; [done|]. apply Forall_take, u8array_PADDING.
Qed.

Lemma rc4_passes_bytes base ks data :
  u8array data -> u8array (rc4_passes base ks data).
Proof.
  unfold rc4_passes. revert data.
  induction ks as [|k ks IH]; intros data Hdata; [done|].
  cbn [fold_left]. apply IH, process_bytes.
Qed.

Lemma rc4_passes_length base ks data :
  length (rc4_passes base ks data) = length data.
Proof.
  unfold rc4_passes. revert data.
  induction ks as [|k ks IH]; intros data; [done|].
  cbn [fold_left]. rewrite IH. apply process_length.
Qed.

(** Running the passes again in the opposite order undoes them. *)
Lemma rc4_passes_undo base ks data :
  u8array data ->
  rc4_passes base (reverse ks) (rc4_passes base ks data) = data.
Proof.
  unfold rc4_passes. revert data.
  induction ks as [|k ks IH]; intros data Hdata; [done|].
  rewrite reverse_cons, fold_left_app. cbn [fold_left].
  rewrite IH by apply process_bytes.
  unfold RC4.encrypt. now apply process_involutive.
Qed.

(** [computeOwnerKey] with its intermediate values. *)
Lemma computeOwnerKey_passes ownerPassword userPassword :
  exists hash base,
    MD5.md5 (Spec.pad (TextEncoder_encode (or_else ownerPassword userPassword)))
    = Some hash /\
    for_range 0 50 (fun hash _ => MD5.md5 hash) hash = Some base /\
    length base = 16%nat /\
    computeOwnerKey ownerPassword userPassword
    = Some (rc4_passes base (seqZ 0 20)
              (Spec.pad (TextEncoder_encode userPassword))).
Proof.
  rewrite or_else_effective.
  destruct (owner_base_key (Spec.effective ownerPassword userPassword))
    as (hash & base & Hhash & Hbase & Hlen & _).
  exists hash, base.
  assert (for_range 0 50 (fun hash _ => MD5.md5 hash) hash = Some base) as Hfor.
  { change (for_range 0 50 (fun hash _ => MD5.md5 hash) hash)
      with (for_range 0 50 (fun hash _ => MD5.md5 (id hash)) hash).
    now rewrite (for_range_redigest id). }
  split; [exact Hhash|]. split; [exact Hfor|]. split; [exact Hlen|].
  unfold computeOwnerKey.
  rewrite !padPassword_pad, or_else_effective. cbn [mbind option_bind].
  rewrite Hhash. cbn [mbind option_bind]. rewrite Hfor. cbn [mbind option_bind].
  f_equal. unfold rc4_passes. apply fold_left_ext_in.
  intros result k _.
  now rewrite slice_0, take_ge by (rewrite xor_key_length; lia).
Qed.

(** X10: the Owner value can be decrypted with the owner password: with the
    16-byte key [base] that [computeOwnerKey] derives from the (effective)
    owner password, the 20 cipher passes run in the opposite order, [k] from
    19 down to 0, turn the Owner value back into the padded user password. *)
Theorem owner_value_decrypts (ownerPassword : option string)
    (userPassword : string) :
  exists paddedOwner hash base paddedUser ownerValue,
    padPassword (or_else ownerPassword userPassword) = Some paddedOwner /\
    MD5.md5 paddedOwner = Some hash /\
    for_range 0 50 (fun hash _ => MD5.md5 hash) hash = Some base /\
    padPassword userPassword = Some paddedUser /\
    computeOwnerKey ownerPassword userPassword = Some ownerValue /\
    rc4_passes base (reverse (seqZ 0 20)) ownerValue = paddedUser.
Proof.
  destruct (computeOwnerKey_passes ownerPassword userPassword)
    as (hash & base & Hhash & Hbase & _ & Howner).
  eexists _, hash, base, _, _.
  split; [apply padPassword_pad|]. split; [exact Hhash|].
  split; [exact Hbase|]. split; [apply padPassword_pad|].
  split; [exact Howner|].
  apply rc4_passes_undo, u8array_pad, u8array_encode.
Qed.

(** [computeUserKey] with its intermediate values, for any key. *)
Lemma computeUserKey_passes fk fid :
  computeUserKey fk fid
  = (d ← MD5.md5 (PADDING ++ fid);
     Some (rc4_passes fk (seqZ 1 19) (RC4.encrypt fk d) ++ replicate 16 0)).
Proof.
  unfold computeUserKey.
  unfold Uint8Array_new. rewrite replicate_add.
  rewrite u8_set_frame_0 by apply length_replicate. cbn [mbind option_bind].
  rewrite u8_set_frame_end by (done || apply length_replicate).
  cbn [mbind option_bind].
  destruct (MD5.md5 (PADDING ++ fid)) as [d|] eqn:Hd; [|done].
  cbn [mbind option_bind].
  change (fold_left (fun result i => RC4.encrypt (xor_key fk i) result)
            (seqZ 1 19) (RC4.encrypt fk d))
    with (rc4_passes fk (seqZ 1 19) (RC4.encrypt fk d)).
  assert (length (rc4_passes fk (seqZ 1 19) (RC4.encrypt fk d)) = 16%nat) as Hlen.
  { rewrite rc4_passes_length, encrypt_length. now apply md5_length in Hd. }
  generalize dependent (rc4_passes fk (seqZ 1 19) (RC4.encrypt fk d)).
  intros result Hlen.
  change (replicate 32 0) with (replicate 16 0 ++ replicate 16 0).
  rewrite u8_set_frame_0 by (rewrite length_replicate; lia).
  cbn [mbind option_bind].
  exact (u8_set_frame_end result (replicate 16 0) (replicate 16 0) 16
           Hlen eq_refl).
Qed.

(** X11: the User value can be checked by decryption, for any file key: the
    passes 19 down to 1 followed by the cipher keyed by the file key itself
    turn the first 16 bytes of the User value back into the digest of
    [PADDING || fileId], and the other 16 bytes are zero. *)
Theorem user_value_decrypts (encryptionKey fileId : list Z) :
  (userValue ← computeUserKey encryptionKey fileId;
   Some (RC4.encrypt encryptionKey
           (rc4_passes encryptionKey (reverse (seqZ 1 19)) (take 16 userValue)),
         drop 16 userValue))
  = (digest ← MD5.md5 (PADDING ++ fileId); Some (digest, replicate 16 0)).
Proof.
  rewrite computeUserKey_passes.
  destruct (MD5.md5 (PADDING ++ fileId)) as [d|] eqn:Hd; [|done].
  cbn [mbind option_bind].
  pose proof (md5_length _ _ Hd) as Hlen.
  pose proof (md5_u8array _ _ Hd) as Hbytes.
  assert (length (rc4_passes encryptionKey (seqZ 1 19)
                    (RC4.encrypt encryptionKey d)) = 16%nat) as Hlen'
    by now rewrite rc4_passes_length, encrypt_length.
  rewrite take_app_length', drop_app_length' by done.
  rewrite rc4_passes_undo by apply process_bytes.
  unfold RC4.encrypt. now rewrite process_involutive.
Qed.

(** ** hexToBytes and bytesToHex *)

(** A loop that stores a value at every index of a fresh array. *)
Lemma fill_loop_prefix (f : Z -> Z) n m :
  (m <= n)%nat ->
  fold_left (fun arr i => u8_store arr (Z.to_nat i) (f i))
            (seqZ 0 (Z.of_nat m)) (Uint8Array_new n)
  = ((fun i => JS.ToUint8 (f i)) <$> seqZ 0 (Z.of_nat m))
    ++ replicate (n - m) 0.
Proof.
  induction m as [|m IH]; intros Hm.
  - cbn. now rewrite Nat.sub_0_r.
  - rewrite seqZ_S, fold_left_app, IH by lia. cbn [fold_left].
    rewrite Z.add_0_l, Nat2Z.id, fmap_app. cbn [fmap list_fmap].
    replace (n - m)%nat with (Datatypes.S (n - Datatypes.S m)) by lia.
    cbn [replicate]. rewrite u8_store_frame.
    + norm_app. reflexivity.
    + rewrite length_fmap, length_seqZ. lia.
Qed.

Lemma fill_loop (f : Z -> Z) n :
  fold_left (fun arr i => u8_store arr (Z.to_nat i) (f i))
            (seqZ 0 (Z.of_nat n)) (Uint8Array_new n)
  = (fun i => JS.ToUint8 (f i)) <$> seqZ 0 (Z.of_nat n).
Proof.
  rewrite fill_loop_prefix by lia. now rewrite Nat.sub_diag, app_nil_r.
Qed.

(** The byte that [hexToBytes] stores for the pair at index [i]. *)
Lemma hexToBytes_map hex :
  Hex.hexToBytes hex
  = (fun i => JS.ToUint8
                (default 0 (Hex.parseInt16
                              (Hex.substr hex (Z.to_nat (i * 2)) 2))))
    <$> seqZ 0 (Z.of_nat (length hex / 2)).
Proof.
  unfold Hex.hexToBytes. rewrite length_Uint8Array_new.
  apply (fill_loop (fun i => default 0 (Hex.parseInt16
                                          (Hex.substr hex (Z.to_nat (i * 2)) 2)))).
Qed.

Lemma div2_cons_cons {A} (a b : A) rest :
  (length (a :: b :: rest) / 2 = Datatypes.S (length rest / 2))%nat.
Proof.
  cbn [length].
  replace (Datatypes.S (Datatypes.S (length rest))) with (1 * 2 + length rest)%nat
    by lia.
  rewrite Nat.div_add_l by lia. lia.
Qed.

(** [hexToBytes] reads its argument two code units at a time. *)
Lemma hexToBytes_cons_cons a b rest :
  Hex.hexToBytes (a :: b :: rest)
  = JS.ToUint8 (default 0 (Hex.parseInt16 [a; b])) :: Hex.hexToBytes rest.
Proof.
  rewrite !hexToBytes_map, div2_cons_cons.
  rewrite Nat2Z.inj_succ, <- Z.add_1_l, seqZ_app by lia.
  rewrite fmap_app. change (seqZ 0 1) with [0]. cbn [fmap list_fmap app].
  f_equal. rewrite <- (fmap_add_seqZ (0 + 1) 0), <- list_fmap_compose.
  apply list_fmap_ext. intros k i Hk. apply lookup_seqZ in Hk as [-> _].
  cbn [compose]. unfold Hex.substr. do 4 f_equal.
  replace (Z.to_nat ((0 + 1 + (0 + Z.of_nat k)) * 2))
    with (Datatypes.S (Datatypes.S (Z.to_nat ((0 + Z.of_nat k) * 2)))) by lia.
  reflexivity.
Qed.

Lemma hexToBytes_short hex : (length hex < 2)%nat -> Hex.hexToBytes hex = [].
Proof.
  intros Hlen. rewrite hexToBytes_map.
  now rewrite Nat.div_small by lia.
Qed.

(** Facts about single bytes, checked on the 256 byte values. *)
Lemma for_all_bytes (P : Z -> bool) :
  forallb P (seqZ 0 256) = true -> forall b, is_u8 b -> P b = true.
Proof.
  intros Hall b Hb. rewrite forallb_forall in Hall.
  apply Hall, list_elem_of_In, elem_of_seqZ. unfold is_u8 in Hb. lia.
Qed.

(** Two lower-case digits are written for every byte. *)
Lemma byte_to_hex b :
  is_u8 b ->
  Hex.padStart2 (Hex.toString16 b)
  = [Hex.hex_digit (b / 16); Hex.hex_digit (b mod 16)].
Proof.
  intros Hb.
  assert (forallb (fun b => bool_decide
            (Hex.padStart2 (Hex.toString16 b)
             = [Hex.hex_digit (b / 16); Hex.hex_digit (b mod 16)]))
            (seqZ 0 256) = true) as Hall by (vm_compute; reflexivity).
  pose proof (for_all_bytes _ Hall b Hb) as H.
  now apply bool_decide_eq_true in H.
Qed.

(** The two digits of a byte are parsed back to the byte. *)
Lemma hex_to_byte b :
  is_u8 b ->
  JS.ToUint8 (default 0 (Hex.parseInt16
                 [Hex.hex_digit (b / 16); Hex.hex_digit (b mod 16)])) = b.
Proof.
  intros Hb.
  assert (forallb (fun b => bool_decide
            (JS.ToUint8 (default 0 (Hex.parseInt16
               [Hex.hex_digit (b / 16); Hex.hex_digit (b mod 16)])) = b))
            (seqZ 0 256) = true) as Hall by (vm_compute; reflexivity).
  pose proof (for_all_bytes _ Hall b Hb) as H.
  now apply bool_decide_eq_true in H.
Qed.

Lemma bytesToHex_cons b bytes :
  is_u8 b ->
  Hex.bytesToHex (b :: bytes)
  = Hex.hex_digit (b / 16) :: Hex.hex_digit (b mod 16) :: Hex.bytesToHex bytes.
Proof.
  intros Hb. unfold Hex.bytesToHex. cbn [fmap list_fmap mjoin list_join].
  now rewrite byte_to_hex.
Qed.

Lemma hexToBytes_bytesToHex bytes :
  u8array bytes ->
  Hex.hexToBytes (Hex.bytesToHex bytes) = bytes /\
  length (Hex.bytesToHex bytes) = (2 * length bytes)%nat.
Proof.
  induction 1 as [|b bytes Hb Hbytes [IH1 IH2]]; [done|].
  rewrite bytesToHex_cons by done. split.
  - rewrite hexToBytes_cons_cons, hex_to_byte, IH1; done.
  - cbn [length]. rewrite IH2. lia.
Qed.

(** X12: [hexToBytes(bytesToHex(bytes))] is [bytes] for every byte array,
    and [bytesToHex] writes two code units per byte. *)
Theorem hex_round_trip (bytes : list Z) :
  u8array bytes ->
  Hex.hexToBytes (Hex.bytesToHex bytes) = bytes /\
  length (Hex.bytesToHex bytes) = (2 * length bytes)%nat.
Proof. apply hexToBytes_bytesToHex. Qed.

Lemma hex_round_trip_witness :
  Hex.hexToBytes (Hex.bytesToHex [0; 7; 160; 255]) = [0; 7; 160; 255].
Proof.
  apply (hex_round_trip [0; 7; 160; 255]).
  unfold u8array, is_u8. repeat constructor; lia.
Defined.

(** Induction on a string two code units at a time. *)
Lemma pair_ind (P : list Z -> Prop) :
  P [] -> (forall a, P [a]) ->
  (forall a b rest, P rest -> P (a :: b :: rest)) ->
  forall l, P l.
Proof.
  intros Hnil Hone Hcons. fix IH 1.
  intros [|a [|b rest]]; [exact Hnil|apply Hone|apply Hcons, IH].
Qed.

(** X13: [hexToBytes] never throws: on any string it returns
    [floor(length / 2)] bytes, one for each pair of code units, and a last
    code unit without a partner is not read. *)
Theorem hexToBytes_total (hex : list Z) :
  length (Hex.hexToBytes hex) = (length hex / 2)%nat /\
  u8array (Hex.hexToBytes hex) /\
  (forall c, Nat.even (length hex) = true ->
             Hex.hexToBytes (hex ++ [c]) = Hex.hexToBytes hex).
Proof.
  split; [|split].
  - rewrite hexToBytes_map, length_fmap, length_seqZ. lia.
  - rewrite hexToBytes_map. apply Forall_fmap, Forall_forall.
    intros i _. apply ToUint8_range.
  - induction hex as [|a|a b rest IH] using pair_ind; intros c Heven.
    + reflexivity.
    + discriminate Heven.
    + cbn [app]. rewrite !hexToBytes_cons_cons. f_equal. apply IH.
      exact Heven.
Qed.

Lemma hexToBytes_total_witness :
  Hex.hexToBytes (Hex.units "0aff" ++ [55]) = Hex.hexToBytes (Hex.units "0aff").
Proof.
  apply (proj2 (proj2 (hexToBytes_total (Hex.units "0aff")))).
  reflexivity.
Defined.

Lemma digit_value_digits c x :
  Hex.digit_value c = Some x -> c ∈ Hex.digits /\ 0 <= x < 16.
Proof.
  unfold Hex.digit_value, Hex.digits. rewrite !elem_of_app, !elem_of_seqZ.
  destruct (Z.leb_spec 48 c), (Z.leb_spec c 57); cbn [andb];
    try (intros [= <-]; lia);
    destruct (Z.leb_spec 97 c), (Z.leb_spec c 102); cbn [andb];
    try (intros [= <-]; lia);
    destruct (Z.leb_spec 65 c), (Z.leb_spec c 70); cbn [andb];
    try (intros [= <-]; lia); discriminate.
Qed.

Lemma digit_not_space_or_sign c x :
  Hex.digit_value c = Some x ->
  Hex.is_white_space c = false /\ c <> 45 /\ c <> 43.
Proof.
  intros Hc. apply digit_value_digits in Hc as [Hc _].
  unfold Hex.digits in Hc. rewrite !elem_of_app, !elem_of_seqZ in Hc.
  split; [|lia].
  unfold Hex.is_white_space. apply bool_decide_eq_false.
  rewrite !elem_of_cons, elem_of_nil. lia.
Qed.

(** The number stored for a pair that starts with a digit ([0x] and [0X]
    are [NaN], stored as 0, which is also the value of their digit). *)
Lemma parseInt16_digit_first a b x :
  Hex.digit_value a = Some x ->
  default 0 (Hex.parseInt16 [a; b])
  = match Hex.digit_value b with Some y => 16 * x + y | None => x end.
Proof.
  intros Ha. destruct (digit_not_space_or_sign a x Ha) as (Hws & H45 & H43).
  unfold Hex.parseInt16. cbn [Hex.trim_start]. rewrite Hws.
  destruct (Z.eqb_spec a 45) as [|_]; [done|].
  destruct (Z.eqb_spec a 43) as [|_]; [done|].
  cbv beta iota zeta.
  destruct ((a =? 48) && ((b =? 120) || (b =? 88))) eqn:Hprefix.
  - apply andb_true_iff in Hprefix as [Ha0 Hb].
    apply Z.eqb_eq in Ha0. subst a. vm_compute in Ha. injection Ha as <-.
    assert (Hex.digit_value b = None) as ->; [|done].
    apply orb_true_iff in Hb as [Hb|Hb]; apply Z.eqb_eq in Hb; now subst b.
  - cbn [Hex.digits_value]. rewrite Ha. cbn [default].
    destruct (Hex.digit_value b) as [y|]; cbn [Hex.digits_value]; unfold id; lia.
Qed.

(** [parseInt] on a pair that starts with neither a digit, nor white space,
    nor a sign. *)
Lemma parseInt16_no_digit a b :
  Hex.digit_value a = None -> Hex.is_white_space a = false ->
  a <> 45 -> a <> 43 -> Hex.parseInt16 [a; b] = None.
Proof.
  intros Ha Hws H45 H43.
  unfold Hex.parseInt16. cbn [Hex.trim_start]. rewrite Hws.
  destruct (Z.eqb_spec a 45) as [|_]; [done|].
  destruct (Z.eqb_spec a 43) as [|_]; [done|].
  cbv beta iota zeta.
  destruct (Z.eqb_spec a 48) as [->|_]; [done|].
  cbn [andb]. now rewrite Ha.
Qed.

(** X14: what [hexToBytes] makes of a pair of code units that is not two
    digits: two digits give [16 * x + y]; a digit followed by anything else
    gives the digit's value alone; a pair that starts with neither a digit,
    white space nor a sign gives 0; no pair is an error. *)
Theorem hexToBytes_pair (a b : Z) :
  (forall x y, Hex.digit_value a = Some x -> Hex.digit_value b = Some y ->
     Hex.hexToBytes [a; b] = [16 * x + y]) /\
  (forall x, Hex.digit_value a = Some x -> Hex.digit_value b = None ->
     Hex.hexToBytes [a; b] = [x]) /\
  (Hex.digit_value a = None -> Hex.is_white_space a = false ->
   a <> 45 -> a <> 43 -> Hex.hexToBytes [a; b] = [0]).
Proof.
  rewrite hexToBytes_cons_cons, hexToBytes_short by (cbn; lia).
  split; [|split].
  - intros x y Ha Hb. rewrite (parseInt16_digit_first a b x Ha), Hb.
    cbn [default]. f_equal.
    apply digit_value_digits in Ha as [_ Hx].
    apply digit_value_digits in Hb as [_ Hy].
    apply ToUint8_id. unfold is_u8. lia.
  - intros x Ha Hb. rewrite (parseInt16_digit_first a b x Ha), Hb.
    cbn [default]. f_equal.
    apply digit_value_digits in Ha as [_ Hx].
    apply ToUint8_id. unfold is_u8. lia.
  - intros Ha Hws H45 H43. now rewrite parseInt16_no_digit.
Qed.

Lemma hexToBytes_pair_witness :
  Hex.hexToBytes (Hex.units "Af") = [175] /\
  Hex.hexToBytes (Hex.units "7g") = [7] /\
  Hex.hexToBytes (Hex.units "zz") = [0].
Proof.
  split; [|split].
  - apply (proj1 (hexToBytes_pair 65 102) 10 15); reflexivity.
  - apply (proj1 (proj2 (hexToBytes_pair 55 103)) 7); reflexivity.
  - apply (proj2 (proj2 (hexToBytes_pair 122 122))); (reflexivity || lia).
Defined.

(** A pair of digits is written back in lower case; checked on the 22 x 22
    pairs of digits. *)
Lemma digit_pair_to_hex a b :
  a ∈ Hex.digits -> b ∈ Hex.digits ->
  Hex.padStart2 (Hex.toString16
                   (JS.ToUint8 (default 0 (Hex.parseInt16 [a; b]))))
  = [Hex.lower_case a; Hex.lower_case b].
Proof.
  intros Ha Hb.
  assert (forallb (fun a => forallb (fun b => bool_decide
            (Hex.padStart2 (Hex.toString16
               (JS.ToUint8 (default 0 (Hex.parseInt16 [a; b]))))
             = [Hex.lower_case a; Hex.lower_case b])) Hex.digits)
            Hex.digits = true) as Hall by (vm_compute; reflexivity).
  rewrite forallb_forall in Hall.
  apply list_elem_of_In, Hall in Ha. rewrite forallb_forall in Ha.
  apply list_elem_of_In, Ha in Hb. now apply bool_decide_eq_true in Hb.
Qed.

Lemma bytesToHex_cons_any b bytes :
  Hex.bytesToHex (b :: bytes)
  = Hex.padStart2 (Hex.toString16 b) ++ Hex.bytesToHex bytes.
Proof. reflexivity. Qed.

Lemma bytesToHex_hexToBytes hex :
  Forall (fun c => c ∈ Hex.digits) hex -> Nat.even (length hex) = true ->
  Hex.bytesToHex (Hex.hexToBytes hex) = Hex.lower_case <$> hex.
Proof.
  induction hex as [|a|a b rest IH] using pair_ind; intros Hdigits Heven.
  - reflexivity.
  - discriminate Heven.
  - apply Forall_cons in Hdigits as [Ha Hdigits].
    apply Forall_cons in Hdigits as [Hb Hdigits].
    rewrite hexToBytes_cons_cons, bytesToHex_cons_any.
    rewrite digit_pair_to_hex by done.
    rewrite IH by done. reflexivity.
Qed.

(** X15: on a string of an even number of hexadecimal digits,
    [bytesToHex(hexToBytes(hex))] is [hex] with its digits [A-F] in lower
    case; in particular a lower-case hexadecimal string comes back
    unchanged. *)
Theorem hex_round_trip_from_text (hex : list Z) :
  Forall (fun c => c ∈ Hex.digits) hex -> Nat.even (length hex) = true ->
  Hex.bytesToHex (Hex.hexToBytes hex) = Hex.lower_case <$> hex.
Proof. apply bytesToHex_hexToBytes. Qed.

Lemma hex_round_trip_from_text_witness :
  Hex.bytesToHex (Hex.hexToBytes (Hex.units "00Ff7a")) = Hex.units "00ff7a".
Proof.
  apply (hex_round_trip_from_text (Hex.units "00Ff7a")).
  - change (Hex.units "00Ff7a") with [48; 48; 70; 102; 55; 97].
    unfold Hex.digits.
    repeat constructor; rewrite !elem_of_app, !elem_of_seqZ; lia.
  - reflexivity.
Defined.

(** ** encryptStringsInObject *)

Lemma for_each_Some {A} (body : A -> option A) xs ys :
  for_each body xs = Some ys ->
  length ys = length xs /\
  (forall i x, xs !! i = Some x ->
     exists y, body x = Some y /\ ys !! i = Some y).
Proof.
  revert ys. induction xs as [|x xs IH]; intros ys Hloop.
  - cbn in Hloop. injection Hloop as <-. done.
  - cbn [for_each] in Hloop. fold (for_each body) in Hloop.
    destruct (body x) as [y|] eqn:Hy; [|done].
    cbn [mbind option_bind] in Hloop.
    destruct (for_each body xs) as [ys'|] eqn:Hys; [|done].
    cbn [mbind option_bind] in Hloop. injection Hloop as <-.
    destruct (IH ys' eq_refl) as [Hlen Hnth].
    split; [cbn [length]; lia|].
    intros [|i] x0 Hx0.
    + injection Hx0 as <-. exists y. done.
    + apply Hnth. exact Hx0.
Qed.

Lemma encryptStringsInObject_dict_eq asBytes entries on gn key :
  encryptStringsInObject asBytes (PDFDict entries) on gn key
  = (entries ←
       for_each
         (fun '(keyName, value) =>
            if is_traversed keyName
            then value ← encryptStringsInObject asBytes value on gn key;
                 Some (keyName, value)
            else Some (keyName, value))
         entries;
     Some (PDFDict entries)).
Proof. reflexivity. Qed.

Lemma encryptStringsInObject_array_eq asBytes elements on gn key :
  encryptStringsInObject asBytes (PDFArray elements) on gn key
  = (elements ←
       for_each (fun element => encryptStringsInObject asBytes element on gn key)
                elements;
     Some (PDFArray elements)).
Proof. reflexivity. Qed.

(** X16: on a dictionary, [encryptStringsInObject] keeps the keys and their
    order, leaves the values under [/Length], [/Filter] and [/DecodeParms]
    as they are and replaces every other value by its own result on that
    value; on an array it keeps the number of elements. *)
Theorem encryptStringsInObject_keeps_structure
    (asBytes : list Z -> list Z) (entries : list (string * PDFObject))
    (objectNum generationNum : Z) (encryptionKey : list Z)
    (result : PDFObject) :
  encryptStringsInObject asBytes (PDFDict entries) objectNum generationNum
                         encryptionKey = Some result ->
  exists entries',
    result = PDFDict entries' /\
    entries'.*1 = entries.*1 /\
    (forall i keyName value,
       entries !! i = Some (keyName, value) ->
       keyName = "/Length"%string \/ keyName = "/Filter"%string
       \/ keyName = "/DecodeParms"%string ->
       entries' !! i = Some (keyName, value)) /\
    (forall i keyName value,
       entries !! i = Some (keyName, value) ->
       is_traversed keyName = true ->
       exists value',
         encryptStringsInObject asBytes value objectNum generationNum
                                encryptionKey = Some value' /\
         entries' !! i = Some (keyName, value')) /\
    (forall elements elements',
       encryptStringsInObject asBytes (PDFArray elements) objectNum
                              generationNum encryptionKey
       = Some (PDFArray elements') ->
       length elements' = length elements).
Proof.
  rewrite encryptStringsInObject_dict_eq. intros Hres.
  destruct (for_each _ entries) as [entries'|] eqn:Hloop; [|done].
  cbn [mbind option_bind] in Hres. apply (inj Some) in Hres. subst result.
  apply for_each_Some in Hloop as [Hlen Hnth].
  exists entries'. split; [reflexivity|].
  assert (forall i keyName value,
            entries !! i = Some (keyName, value) ->
            exists value', entries' !! i = Some (keyName, value') /\
              if is_traversed keyName
              then encryptStringsInObject asBytes value objectNum generationNum
                     encryptionKey = Some value'
              else value' = value) as Hentry.
  { intros i keyName value Hi.
    destruct (Hnth i _ Hi) as ([k v'] & Hbody & Hi').
    destruct (is_traversed keyName).
    - destruct (encryptStringsInObject asBytes value _ _ _) as [w|]; [|done].
      cbn [mbind option_bind] in Hbody. injection Hbody as <- <-. eauto.
    - injection Hbody as <- <-. eauto. }
  split; [|split; [|split]].
  - apply list_eq. intros i. rewrite !list_lookup_fmap.
    destruct (entries !! i) as [[k v]|] eqn:Hi.
    + destruct (Hentry i k v Hi) as (v' & -> & _). reflexivity.
    + apply lookup_ge_None in Hi.
      rewrite (proj2 (lookup_ge_None entries' i)) by lia. reflexivity.
  - intros i keyName value Hi Hskip.
    destruct (Hentry i keyName value Hi) as (v' & Hi' & Hv').
    assert (is_traversed keyName = false) as Hfalse
      by (destruct Hskip as [->|[->| ->]]; reflexivity).
    rewrite Hfalse in Hv'. now subst v'.
  - intros i keyName value Hi Htrav.
    destruct (Hentry i keyName value Hi) as (v' & Hi' & Hv').
    rewrite Htrav in Hv'. eauto.
  - intros elements elements'. rewrite encryptStringsInObject_array_eq.
    destruct (for_each _ elements) as [l|] eqn:Hl; [|done].
    cbn [mbind option_bind]. intros [= <-].
    now apply for_each_Some in Hl as [Hlen' _].
Qed.

Lemma encryptStringsInObject_keeps_structure_witness :
  exists entries',
    PDFDict [("/Length"%string, PDFHexString [48; 97]);
             ("/T"%string, PDFHexString [101; 54])]
    = PDFDict entries' /\
    entries'.*1
    = [("/Length"%string, PDFHexString [48; 97]);
       ("/T"%string, PDFHexString [48; 97])].*1 /\
    (forall i keyName value,
       [("/Length"%string, PDFHexString [48; 97]);
        ("/T"%string, PDFHexString [48; 97])] !! i = Some (keyName, value) ->
       keyName = "/Length"%string \/ keyName = "/Filter"%string
       \/ keyName = "/DecodeParms"%string ->
       entries' !! i = Some (keyName, value)) /\
    (forall i keyName value,
       [("/Length"%string, PDFHexString [48; 97]);
        ("/T"%string, PDFHexString [48; 97])] !! i = Some (keyName, value) ->
       is_traversed keyName = true ->
       exists value',
         encryptStringsInObject id value 7 0 (zero_bytes 16) = Some value' /\
         entries' !! i = Some (keyName, value')) /\
    (forall elements elements',
       encryptStringsInObject id (PDFArray elements) 7 0 (zero_bytes 16)
       = Some (PDFArray elements') ->
       length elements' = length elements).
Proof.
  apply (encryptStringsInObject_keeps_structure id
           [("/Length"%string, PDFHexString [48; 97]);
            ("/T"%string, PDFHexString [48; 97])] 7 0 (zero_bytes 16)).
  vm_compute. reflexivity.
Defined.

Lemma u8array_hexToBytes hex : u8array (Hex.hexToBytes hex).
Proof.
  rewrite hexToBytes_map. apply Forall_fmap, Forall_forall.
  intros i _. apply ToUint8_range.
Qed.

Lemma encryptObject_bytes data on gn key encrypted :
  encryptObject data on gn key = Some encrypted -> u8array encrypted.
Proof.
  unfold encryptObject. destruct (objectKey on gn key) as [k|]; [|done].
  cbn [mbind option_bind]. intros Henc. apply (inj Some) in Henc.
  subst encrypted. apply process_bytes.
Qed.

Lemma encryptObject_length data on gn key encrypted :
  encryptObject data on gn key = Some encrypted ->
  length encrypted = length data.
Proof.
  unfold encryptObject. destruct (objectKey on gn key) as [k|]; [|done].
  cbn [mbind option_bind]. intros Henc. apply (inj Some) in Henc.
  subst encrypted. apply encrypt_length.
Qed.

Lemma encryptObject_undo data on gn key encrypted :
  u8array data ->
  encryptObject data on gn key = Some encrypted ->
  encryptObject encrypted on gn key = Some data.
Proof.
  intros Hdata. unfold encryptObject.
  destruct (objectKey on gn key) as [k|]; [|done].
  cbn [mbind option_bind]. intros Henc. apply (inj Some) in Henc.
  subst encrypted. unfold RC4.encrypt. now rewrite process_involutive.
Qed.

(** The text written by [bytesToHex] consists of the digits [0-9a-f]. *)
Lemma bytesToHex_lower_digits bytes :
  u8array bytes ->
  Forall (fun c => c ∈ Hex.digits /\ Hex.lower_case c = c)
         (Hex.bytesToHex bytes).
Proof.
  assert (forallb (fun b => forallb (fun c => bool_decide
            (c ∈ Hex.digits /\ Hex.lower_case c = c))
            (Hex.padStart2 (Hex.toString16 b)))
            (seqZ 0 256) = true) as Hall by (vm_compute; reflexivity).
  induction 1 as [|b bytes Hb Hbytes IH]; [constructor|].
  rewrite bytesToHex_cons_any. apply Forall_app. split; [|exact IH].
  pose proof (for_all_bytes _ Hall b Hb) as Hdigits.
  rewrite forallb_forall in Hdigits. apply Forall_forall.
  intros c Hc. apply list_elem_of_In, Hdigits in Hc.
  now apply bool_decide_eq_true in Hc.
Qed.

(** X17: [encryptStringsInObject] replaces the value of a literal string by
    text: two lower-case hexadecimal digits for each byte of [asBytes()],
    which [hexToBytes] reads back as the RC4 ciphertext of those bytes under
    the object's key. The result is again a literal string. *)
Theorem encryptStringsInObject_string_becomes_hex_text
    (asBytes : list Z -> list Z) (value : list Z)
    (objectNum generationNum : Z) (encryptionKey : list Z)
    (result : PDFObject) :
  encryptStringsInObject asBytes (PDFString value) objectNum generationNum
                         encryptionKey = Some result ->
  exists text,
    result = PDFString text /\
    length text = (2 * length (asBytes value))%nat /\
    Forall (fun c => c ∈ Hex.digits /\ Hex.lower_case c = c) text /\
    encryptObject (asBytes value) objectNum generationNum encryptionKey
    = Some (Hex.hexToBytes text).
Proof.
  cbn [encryptStringsInObject]. cbv zeta.
  destruct (encryptObject (asBytes value) _ _ _) as [encrypted|] eqn:Henc;
    [|done].
  cbn [mbind option_bind]. intros Hres. apply (inj Some) in Hres.
  subst result. exists (Hex.bytesToHex encrypted).
  pose proof (encryptObject_bytes _ _ _ _ _ Henc) as Hbytes.
  destruct (hexToBytes_bytesToHex encrypted Hbytes) as [Hback Hlen].
  split; [reflexivity|]. split; [|split].
  - rewrite Hlen. now rewrite (encryptObject_length _ _ _ _ _ Henc).
  - now apply bytesToHex_lower_digits.
  - now rewrite Hback.
Qed.

Lemma encryptStringsInObject_string_becomes_hex_text_witness :
  exists text,
    PDFString [97; 100; 56; 100] = PDFString text /\
    length text = (2 * length (id [65; 66]%Z))%nat /\
    Forall (fun c => c ∈ Hex.digits /\ Hex.lower_case c = c) text /\
    encryptObject (id [65; 66]) 7 0 (zero_bytes 16)
    = Some (Hex.hexToBytes text).
Proof.
  apply (encryptStringsInObject_string_becomes_hex_text
           id [65; 66] 7 0 (zero_bytes 16)).
  vm_compute. reflexivity.
Defined.

(** X18: on a hexadecimal string of an even number of hexadecimal digits,
    [encryptStringsInObject] applied a second time with the same object
    number, generation number and key restores the string, with its digits
    [A-F] in lower case (and it throws the second time only if it threw the
    first time). *)
Theorem encryptStringsInObject_hex_string_twice
    (asBytes : list Z -> list Z) (value : list Z)
    (objectNum generationNum : Z) (encryptionKey : list Z) :
  Forall (fun c => c ∈ Hex.digits) value ->
  Nat.even (length value) = true ->
  (encrypted ← encryptStringsInObject asBytes (PDFHexString value) objectNum
                 generationNum encryptionKey;
   encryptStringsInObject asBytes encrypted objectNum generationNum
     encryptionKey)
  = (_ ← encryptStringsInObject asBytes (PDFHexString value) objectNum
           generationNum encryptionKey;
     Some (PDFHexString (Hex.lower_case <$> value))).
Proof.
  intros Hdigits Heven. cbn [encryptStringsInObject]. cbv zeta.
  destruct (encryptObject (Hex.hexToBytes value) _ _ _) as [encrypted|]
    eqn:Henc; [|done].
  cbn [mbind option_bind encryptStringsInObject]. cbv zeta.
  pose proof (encryptObject_bytes _ _ _ _ _ Henc) as Hbytes.
  rewrite (proj1 (hexToBytes_bytesToHex encrypted Hbytes)).
  rewrite (encryptObject_undo _ _ _ _ _ (u8array_hexToBytes value) Henc).
  cbn [mbind option_bind]. now rewrite bytesToHex_hexToBytes.
Qed.

Lemma encryptStringsInObject_hex_string_twice_witness :
  (encrypted ← encryptStringsInObject id (PDFHexString (Hex.units "0A0b")) 7
                 0 (zero_bytes 16);
   encryptStringsInObject id encrypted 7 0 (zero_bytes 16))
  = (_ ← encryptStringsInObject id (PDFHexString (Hex.units "0A0b")) 7 0
           (zero_bytes 16);
     Some (PDFHexString (Hex.lower_case <$> Hex.units "0A0b"))).
Proof.
  apply (encryptStringsInObject_hex_string_twice
           id (Hex.units "0A0b") 7 0 (zero_bytes 16)).
  - change (Hex.units "0A0b") with [48; 65; 48; 98].
    unfold Hex.digits. repeat constructor;
      rewrite !elem_of_app, !elem_of_seqZ; lia.
  - reflexivity.
Defined.

(** ** encryptPDF: the key set-up *)

Lemma computeEncryptionKey_returns u o p f :
  Z.of_nat (32 + length o + 4 + length f) + 72 < 2 ^ 31 ->
  exists key,
    computeEncryptionKey u o p f = Some key /\
    length key = 16%nat /\ u8array key.
Proof.
  intros Hdom. rewrite computeEncryptionKey_hashInput.
  set (hashInput := Spec.pad _ ++ _).
  destruct (md5_returns hashInput) as (h & Hh & Hlen & Hu8).
  { revert Hdom. unfold hashInput. rewrite !length_app, length_pad.
    rewrite length_le_bytes. lia. }
  rewrite Hh. cbn [mbind option_bind].
  change (for_range 0 50 (fun hash _ => MD5.md5 (slice hash 0 16)) h)
    with (for_range 0 50 (fun hash _ => MD5.md5 (take 16 hash)) h).
  rewrite (for_range_redigest (take 16)).
  destruct (redigest_returns 50 (take 16) h) as (h' & Hh' & Hlen' & Hu8');
    [intros x; rewrite length_take; lia|done..|].
  rewrite Hh'. cbn [mbind option_bind]. exists h'.
  rewrite slice_0, take_ge by lia. done.
Qed.

Lemma u8array_replicate_0 n : u8array (replicate n 0).
Proof. apply Forall_replicate. unfold is_u8. lia. Qed.

(** X19: the key set-up of [encryptPDF] succeeds for every user password,
    every owner password (given or not) and every file identifier shorter
    than [2 ^ 31 - 140] bytes: the Owner value has 32 bytes, the file key 16
    and the User value 32, and the texts that [bytesToHex] writes for the
    [/O] and [/U] entries have 64 hexadecimal digits each and are read back
    by [hexToBytes] as the two values. *)
Theorem encryptPDF_keys_returns (fileId : list Z) (userPassword : string)
    (ownerPassword : option string) :
  Z.of_nat (length fileId) + 140 < 2 ^ 31 ->
  exists ownerKey encryptionKey userKey,
    encryptPDF_keys fileId userPassword ownerPassword
    = Some (ownerKey, encryptionKey, userKey) /\
    (length ownerKey = 32 /\ length encryptionKey = 16
     /\ length userKey = 32)%nat /\
    (u8array ownerKey /\ u8array encryptionKey /\ u8array userKey) /\
    (length (Hex.bytesToHex ownerKey) = 64
     /\ length (Hex.bytesToHex userKey) = 64)%nat /\
    Hex.hexToBytes (Hex.bytesToHex ownerKey) = ownerKey /\
    Hex.hexToBytes (Hex.bytesToHex userKey) = userKey.
Proof.
  intros Hdom. unfold encryptPDF_keys. cbv zeta.
  destruct (computeOwnerKey_passes ownerPassword userPassword)
    as (hash & base & _ & _ & _ & Howner).
  rewrite Howner. cbn [mbind option_bind].
  set (ownerKey := rc4_passes base (seqZ 0 20) _).
  assert (length ownerKey = 32%nat) as HlenO
    by (unfold ownerKey; rewrite rc4_passes_length; apply length_pad).
  assert (u8array ownerKey) as HbytesO
    by (apply rc4_passes_bytes, u8array_pad, u8array_encode).
  destruct (computeEncryptionKey_returns userPassword ownerKey 0xFFFFFFFC fileId)
    as (key & Hkey & HlenK & HbytesK); [rewrite HlenO; lia|].
  rewrite Hkey. cbn [mbind option_bind].
  rewrite computeUserKey_passes.
  destruct (md5_returns (PADDING ++ fileId)) as (d & Hd & HlenD & _).
  { rewrite length_app. change (length PADDING) with 32%nat. lia. }
  rewrite Hd. cbn [mbind option_bind].
  set (userKey := rc4_passes key (seqZ 1 19) _ ++ replicate 16 0).
  assert (length userKey = 32%nat) as HlenU.
  { unfold userKey.
    rewrite length_app, rc4_passes_length, encrypt_length, length_replicate.
    lia. }
  assert (u8array userKey) as HbytesU.
  { apply Forall_app. split; [|apply u8array_replicate_0].
    apply rc4_passes_bytes, process_bytes. }
  exists ownerKey, key, userKey.
  destruct (hexToBytes_bytesToHex ownerKey HbytesO) as [HbackO HhexO].
  destruct (hexToBytes_bytesToHex userKey HbytesU) as [HbackU HhexU].
  rewrite HhexO, HhexU, HlenO, HlenU. done.
Qed.

Lemma encryptPDF_keys_returns_witness :
  exists ownerKey encryptionKey userKey,
    encryptPDF_keys (zero_bytes 16) "secret123" None
    = Some (ownerKey, encryptionKey, userKey) /\
    (length ownerKey = 32 /\ length encryptionKey = 16
     /\ length userKey = 32)%nat /\
    (u8array ownerKey /\ u8array encryptionKey /\ u8array userKey) /\
    (length (Hex.bytesToHex ownerKey) = 64
     /\ length (Hex.bytesToHex userKey) = 64)%nat /\
    Hex.hexToBytes (Hex.bytesToHex ownerKey) = ownerKey /\
    Hex.hexToBytes (Hex.bytesToHex userKey) = userKey.
Proof.
  apply (encryptPDF_keys_returns (zero_bytes 16) "secret123" None).
  vm_compute. reflexivity.
Defined.
